(** * FamilyTreeBuilder CSV to PDF: birthdays and anniversaries by month

    A shallow embedding of [familytreebuilder_to_pdf.py] and the proofs of
    the properties its specification states about name resolution, event
    extraction and month grouping.

    Modelling conventions.
    - A CSV row is what [csv.DictReader] yields for a file whose header has
      the eight columns the program reads, every cell being a [str]: a
      record of eight strings.
    - A Python [str] is a [string]; a character is a code point below 256.
    - A Python [int] is a [Z].
    - An exception is a value of [exn]; code that can raise returns [res].
    - The [dict] returned by [parse_input] keeps its keys in insertion
      order (Python 3.7 and later): an association list with unique keys. *)

From Stdlib Require Import ZArith List Bool Ascii String Lia.
From Stdlib Require Import Sorting.Sorted Sorting.Permutation.
From Stdlib Require Import Numbers.DecimalString.
Import ListNotations.

Open Scope string_scope.
Open Scope list_scope.
Open Scope Z_scope.

(** ** Python built-ins used by the program *)

Module Py.

(** Exceptions the modelled code can raise. *)
Inductive exn : Type :=
| ValueError
| IndexError.

(** The outcome of a computation that may raise. *)
Inductive res (A : Type) : Type :=
| Ok (a : A)
| Raise (e : exn).
Arguments Ok {A} a.
Arguments Raise {A} e.

Definition bind {A B} (c : res A) (k : A -> res B) : res B :=
  match c with
  | Ok a => k a
  | Raise e => Raise e
  end.

(** [for x in xs: body], the loop state passed along; the first
    exception leaves the loop. *)
Fixpoint for_in {A S} (xs : list A) (body : A -> S -> res S) (st : S)
  : res S :=
  match xs with
  | [] => Ok st
  | x :: xs' => bind (body x st) (for_in xs' body)
  end.

(** [try: body / except: pass].  The bodies this is used on change the
    state in their last statement only, so that the state after an
    exception is the state before the body. *)
Definition try_except_pass {S} (body : S -> res S) (st : S) : S :=
  match body st with
  | Ok st' => st'
  | Raise _ => st
  end.

(** Truth value of a [str]: false for the empty string only. *)
Definition truthy (s : string) : bool :=
  match s with
  | EmptyString => false
  | String _ _ => true
  end.

(** [str(n)], which is also what ["%s" % n] prints for an [int]. *)
Definition str (n : Z) : string := NilZero.string_of_int (Z.to_int n).

(** The last occurrence of the separator: the text before it and the
    text after it. *)
Fixpoint rpartition (sep : ascii) (s : string) : option (string * string) :=
  match s with
  | EmptyString => None
  | String c t =>
      match rpartition sep t with
      | Some (b, a) => Some (String c b, a)
      | None => if Ascii.eqb c sep then Some (EmptyString, t) else None
      end
  end.

(** [s.rsplit(sep, 1)] for a one-character separator: one split at
    most, made at the last separator. *)
Definition rsplit1 (sep : ascii) (s : string) : list string :=
  match rpartition sep s with
  | Some (b, a) => [b; a]
  | None => [s]
  end.

(** [l[i]] for [0 <= i]; only used where the index exists. *)
Definition item (l : list string) (i : nat) : string :=
  nth i l EmptyString.

End Py.
Import Py.

Notation "x <- c ;; k" := (bind c (fun x => k))
  (at level 61, c at next level, right associativity).
Notation "' pat <- c ;; k" := (bind c (fun x => match x with pat => k end))
  (at level 61, pat pattern, c at next level, right associativity).

(** ** Data model *)

(** A row of the report, as [csv.DictReader] gives it. *)
Record Row : Type := mkRow {
  First_name : string;
  Last_name : string;
  Gender : string;
  Birth_date : string;
  Death_date : string;
  Marriage_date : string;
  Marriage_to : string;
  Married_Name : string
}.

(** ** Name resolution: [normalize_name] *)

Definition normalize_name (row : Row) : string :=
  if String.eqb (Gender row) "M" then
    First_name row ++ " " ++ Last_name row
  else
    let spouse_last_name := rsplit1 " " (Marriage_to row) in
    if Nat.eqb (List.length spouse_last_name) 2 then
      First_name row ++ " " ++ item spouse_last_name 1
    else if truthy (Married_Name row) then
      First_name row ++ " " ++ Married_Name row
    else
      First_name row ++ " " ++ Last_name row.

(** ** Dates: [datetime.datetime] and [strptime] *)

(** A [datetime] built by [strptime] from a date without a time of day
    has its time fields at zero; the program reads [year], [month] and
    [day] only. *)
Record datetime : Type := mkDatetime {
  year : Z;
  month : Z;
  day : Z
}.

Module Datetime.

Definition is_leap (y : Z) : bool :=
  (y mod 4 =? 0) && (negb (y mod 100 =? 0) || (y mod 400 =? 0)).

Definition days_in_month (y m : Z) : Z :=
  if (m =? 2) && is_leap y then 29
  else nth (Z.to_nat m) [0; 31; 28; 31; 30; 31; 30; 31; 31; 30; 31; 30; 31] 0.

(** The constructor checks the ranges of its fields. *)
Definition new (y m d : Z) : res datetime :=
  if (1 <=? y) && (y <=? 9999) && (1 <=? m) && (m <=? 12)
     && (1 <=? d) && (d <=? days_in_month y m)
  then Ok (mkDatetime y m d)
  else Raise ValueError.

End Datetime.

(** [datetime.datetime.strptime(s, "%b. %d %Y")] in the C locale.  The
    library turns the format into the regular expression
    [(jan|feb|...|dec)\.\s+(3[0-1]|[1-2]\d|0[1-9]|[1-9]| [1-9])\s+(\d\d\d\d)],
    matched at the start of [s] ignoring case; text left after the match
    is an error, and so is a date the calendar does not have. *)
Module Strptime.

Definition code (c : ascii) : Z := Z.of_N (N_of_ascii c).

(** [\d] *)
Definition is_digit (c : ascii) : bool :=
  (48 <=? code c) && (code c <=? 57).

(** [\s] on text: the white space of Unicode below 256. *)
Definition is_space (c : ascii) : bool :=
  let n := code c in
  ((9 <=? n) && (n <=? 13)) || ((28 <=? n) && (n <=? 32))
  || (n =? 133) || (n =? 160).

Definition lower (c : ascii) : ascii :=
  if (65 <=? code c) && (code c <=? 90)
  then ascii_of_N (N_of_ascii c + 32)
  else c.

Definition digit (c : ascii) : Z := code c - 48.

(** [locale_time.a_month[1:]] *)
Definition a_month : list string :=
  ["jan"; "feb"; "mar"; "apr"; "may"; "jun";
   "jul"; "aug"; "sep"; "oct"; "nov"; "dec"].

(** [a_month.index(b) + 1] *)
Fixpoint index_from (i : Z) (b : string) (l : list string) : option Z :=
  match l with
  | [] => None
  | x :: l' => if String.eqb x b then Some i else index_from (i + 1) b l'
  end.

Fixpoint skip_spaces (s : string) : string :=
  match s with
  | String c t => if is_space c then skip_spaces t else s
  | EmptyString => EmptyString
  end.

(** [\s+]: one white space character at least, and the whole run of
    them.  Giving characters of the run back never helps the match: what
    follows [\s+] in the expression is a digit, or the space of the
    alternative [ [1-9]], which reads the day that [[1-9]] reads after
    the whole run. *)
Definition spaces (s : string) : option string :=
  match s with
  | String c t => if is_space c then Some (skip_spaces t) else None
  | EmptyString => None
  end.

(** [%d]: two digits from 01 to 31, or one digit from 1 to 9 when no
    second digit follows. *)
Definition match_d (s : string) : option (Z * string) :=
  match s with
  | String c1 (String c2 t) =>
      if is_digit c1 && is_digit c2 then
        let d := 10 * digit c1 + digit c2 in
        if (1 <=? d) && (d <=? 31) then Some (d, t) else None
      else if is_digit c1 && (1 <=? digit c1) then
        Some (digit c1, String c2 t)
      else None
  | String c1 EmptyString =>
      if is_digit c1 && (1 <=? digit c1) then Some (digit c1, EmptyString)
      else None
  | EmptyString => None
  end.

(** [%Y]: four digits. *)
Definition match_Y (s : string) : option (Z * string) :=
  match s with
  | String c1 (String c2 (String c3 (String c4 t))) =>
      if is_digit c1 && is_digit c2 && is_digit c3 && is_digit c4 then
        Some (1000 * digit c1 + 100 * digit c2 + 10 * digit c3 + digit c4, t)
      else None
  | _ => None
  end.

(** [%b.]: a month abbreviation in any case, then a full stop. *)
Definition match_b_dot (s : string) : option (Z * string) :=
  match s with
  | String c1 (String c2 (String c3 (String "." t))) =>
      let b := String (lower c1) (String (lower c2)
                 (String (lower c3) EmptyString)) in
      match index_from 1 b a_month with
      | Some m => Some (m, t)
      | None => None
      end
  | _ => None
  end.

Definition of_option {A} (o : option A) : res A :=
  match o with
  | Some a => Ok a
  | None => Raise ValueError
  end.

Definition strptime (s : string) : res datetime :=
  '(m, s1) <- of_option (match_b_dot s) ;;
  s2 <- of_option (spaces s1) ;;
  '(d, s3) <- of_option (match_d s2) ;;
  s4 <- of_option (spaces s3) ;;
  '(y, s5) <- of_option (match_Y s4) ;;
  if truthy s5 then Raise ValueError
  else Datetime.new y m d.

End Strptime.

(** ** Events, ordering and the month dictionary *)

(** The [dict] with keys ['date'] and ['reason'] built for each event. *)
Record Event : Type := mkEvent {
  date : datetime;
  reason : string
}.

Module Order.

Definition code (c : ascii) : N := N_of_ascii c.

(** [s1 < s2] on [str]: the first differing code point decides, a
    proper prefix is smaller. *)
Fixpoint str_ltb (s1 s2 : string) : bool :=
  match s1, s2 with
  | _, EmptyString => false
  | EmptyString, String _ _ => true
  | String c1 t1, String c2 t2 =>
      if N.eqb (code c1) (code c2) then str_ltb t1 t2
      else N.ltb (code c1) (code c2)
  end.

(** [k1 < k2] on tuples [(int, str)]: the first component where the
    tuples differ decides. *)
Definition tuple_ltb (k1 k2 : Z * string) : bool :=
  if negb (fst k1 =? fst k2) then fst k1 <? fst k2
  else if negb (String.eqb (snd k1) (snd k2)) then str_ltb (snd k1) (snd k2)
  else false.

Section Sorted.
Context {A K : Type} (ltb : K -> K -> bool) (key : A -> K).

(** [x] goes after the elements whose key is smaller than its own. *)
Fixpoint insert (x : A) (l : list A) : list A :=
  match l with
  | [] => [x]
  | y :: l' => if ltb (key y) (key x) then y :: insert x l' else x :: l
  end.

(** [sorted(l, key=key)].  Python's sort is stable and compares keys
    with [<] only; a stable sort has one result, and this insertion
    sort, which lets an element pass only strictly smaller keys,
    computes it. *)
Definition sorted (l : list A) : list A := fold_right insert [] l.
End Sorted.

End Order.

(** [collections.defaultdict(list)] with [int] keys, in insertion order. *)
Module Dict.

Definition t (V : Type) : Type := list (Z * V).

Definition keys {V} (d : t V) : list Z := map fst d.

Fixpoint get {V} (d : t V) (k : Z) : option V :=
  match d with
  | [] => None
  | (k', v) :: d' => if k' =? k then Some v else get d' k
  end.

(** [d[k] = v]: the value of an existing key is replaced where it is, a
    new key goes last. *)
Fixpoint set {V} (d : t V) (k : Z) (v : V) : t V :=
  match d with
  | [] => [(k, v)]
  | (k', v') :: d' =>
      if k' =? k then (k', v) :: d' else (k', v') :: set d' k v
  end.

(** [d[k]] on a [defaultdict(list)]: a missing key is first inserted
    with the empty list. *)
Definition getitem {A} (d : t (list A)) (k : Z) : list A * t (list A) :=
  match get d k with
  | Some l => (l, d)
  | None => ([], set d k [])
  end.

(** [d[k].append(x)]: the list stored in the dictionary is the one that
    grows. *)
Definition append {A} (d : t (list A)) (k : Z) (x : A) : t (list A) :=
  let '(l, d') := getitem d k in set d' k (l ++ [x]).

End Dict.

(** ** Event extraction and month grouping: [parse_input] *)

Section ParseInput.

(** [datetime.datetime.strptime(s, "%b. %d %Y")]. *)
Variable strptime : string -> res datetime.

(** Lines 49-53, the body of the [try]. *)
Definition birthday_body (row : Row) (special_days : list Event)
  : res (list Event) :=
  if truthy (Birth_date row) then
    d <- strptime (Birth_date row) ;;
    let r := ("Birthday of " ++ normalize_name row
                ++ " (born in " ++ str (year d) ++ ")")%string in
    Ok (special_days ++ [mkEvent d r])
  else Ok special_days.

(** Lines 48-55. *)
Definition birthday_step (row : Row) (special_days : list Event)
  : res (list Event) :=
  Ok (try_except_pass (birthday_body row) special_days).

(** Lines 59-63. *)
Definition anniversary_step (row : Row) (special_days : list Event)
  : res (list Event) :=
  if truthy (Marriage_date row) && String.eqb (Gender row) "M" then
    d <- strptime (Marriage_date row) ;;
    let r := ("Anniversary of " ++ First_name row ++ " " ++ Last_name row
                ++ " and " ++ Marriage_to row
                ++ " (married in " ++ str (year d) ++ ")")%string in
    Ok (special_days ++ [mkEvent d r])
  else Ok special_days.

(** Line 42. *)
Definition alive (rows : list Row) : list Row :=
  filter (fun row => negb (truthy (Death_date row))) rows.

(** Lines 41-63: the list [special_days] when the loops are over. *)
Definition special_days (rows : list Row) : res (list Event) :=
  let rows := alive rows in
  special_days <- for_in rows birthday_step [] ;;
  for_in rows anniversary_step special_days.

(** Line 72, the sort key. *)
Definition sort_key (i : Event) : Z * string := (day (date i), reason i).

(** Line 68. *)
Definition add_event (d : Dict.t (list Event)) (event : Event)
  : Dict.t (list Event) :=
  Dict.append d (month (date event)) event.

(** Lines 66-68. *)
Definition group_by_month (special_days : list Event)
  : Dict.t (list Event) :=
  fold_left add_event special_days [].

(** Line 72. *)
Definition sort_month (d : Dict.t (list Event)) (month_num : Z)
  : Dict.t (list Event) :=
  let '(l, d') := Dict.getitem d month_num in
  Dict.set d' month_num (Order.sorted Order.tuple_ltb sort_key l).

(** Lines 71-72. *)
Definition sort_each_month (events_by_month : Dict.t (list Event))
  : Dict.t (list Event) :=
  fold_left sort_month (Dict.keys events_by_month) events_by_month.

(** [parse_input], from the rows read at lines 37-39. *)
Definition parse_input (rows : list Row) : res (Dict.t (list Event)) :=
  special_days <- special_days rows ;;
  Ok (sort_each_month (group_by_month special_days)).

End ParseInput.

(** ** The report: [generate_pdf] and [main] *)

Module Report.

Inductive style : Type := Normal | Title.

(** What the program hands to [reportlab]: the arguments of each
    [Paragraph], and the spacer [KeepTogether(Spacer(1, 0.2 inch))].
    What [reportlab] does with them is outside the model: a paragraph
    stands for its text and style, whether or not the text is markup
    that [reportlab] accepts. *)
Inductive flowable : Type :=
| Paragraph (text : string) (s : style)
| Spacer.

(** [calendar.month_name] in the C locale. *)
Definition month_name : list string :=
  [""; "January"; "February"; "March"; "April"; "May"; "June"; "July";
   "August"; "September"; "October"; "November"; "December"].

(** [l[i]] on a list: a negative index counts from the end. *)
Definition getitem (l : list string) (i : Z) : res string :=
  let n := Z.of_nat (List.length l) in
  let j := if i <? 0 then i + n else i in
  if (0 <=? j) && (j <? n) then Ok (nth (Z.to_nat j) l EmptyString)
  else Raise IndexError.

(** Lines 96-99. *)
Definition event_lines (events : list Event) (story : list flowable)
  : list flowable :=
  fold_left
    (fun story event =>
       story ++ [Paragraph (str (day (date event)) ++ " " ++ reason event)
                           Normal])
    events story.

(** Lines 89-99; the loop state is [(first, story)]. *)
Definition month_step (events_by_month : Dict.t (list Event))
           (month_num : Z) (st : bool * list flowable)
  : res (bool * list flowable) :=
  let '(first, story) := st in
  let story := if first then story else story ++ [Spacer] in
  name <- getitem month_name month_num ;;
  let story :=
    story ++ [Paragraph ("<font size=12><b>" ++ name ++ "</b></font>")
                        Normal] in
  let events := fst (Dict.getitem events_by_month month_num) in
  Ok (false, event_lines events story).

(** Lines 77-99 of [generate_pdf]: the list [story] as it stands when
    line 102 calls [doc.build], or the exception of the month lookup of
    line 94.  The work of [reportlab] is not modelled, neither the
    reading of a paragraph's text nor the writing of the file at lines
    101-102, which can fail: [Ok story] says that the loops have built
    [story], not that a document was written. *)
Definition generate_pdf (events_by_month : Dict.t (list Event))
  : res (list flowable) :=
  let story := [Paragraph "<b>Family Birthdays and Anniversaries</b>" Title] in
  st <- for_in (Dict.keys events_by_month) (month_step events_by_month)
               (true, story) ;;
  Ok (snd st).

End Report.

Section Main.

Variable strptime : string -> res datetime.

(** [main] on the rows of the input file: the story handed to
    [doc.build], or the exception raised before that. *)
Definition main (rows : list Row) : res (list Report.flowable) :=
  events_by_month <- parse_input strptime rows ;;
  Report.generate_pdf events_by_month.

End Main.

(** ** Vocabulary of the specification *)

Module Spec.

(** Some character of [s] satisfies [p]. *)
Fixpoint contains (p : ascii -> bool) (s : string) : bool :=
  match s with
  | EmptyString => false
  | String c t => p c || contains p t
  end.

(** The last token of [s] for the delimiters [p]: the text after the last
    delimiter, the whole of [s] when it has none. *)
Fixpoint last_token (p : ascii -> bool) (s : string) : string :=
  match s with
  | EmptyString => EmptyString
  | String c t =>
      if contains p t then last_token p t
      else if p c then t
      else s
  end.

(** The space character, U+0020. *)
Definition is_space : ascii -> bool := Ascii.eqb " ".

(** White space: space, tab, line feed, vertical tab, form feed and
    carriage return. *)
Definition is_whitespace (c : ascii) : bool :=
  let n := N_of_ascii c in
  (N.eqb n 32 || (N.leb 9 n && N.leb n 13))%bool.

(** The rule of the specification for a record that is not male, with
    the token delimited by white space. *)
Definition resolve_name_ws (row : Row) : string :=
  if contains is_space (Marriage_to row) then
    First_name row ++ " " ++ last_token is_whitespace (Marriage_to row)
  else if truthy (Married_Name row) then
    First_name row ++ " " ++ Married_Name row
  else
    First_name row ++ " " ++ Last_name row.

(** The same rule with the token delimited by the space character. *)
Definition resolve_name_sp (row : Row) : string :=
  if contains is_space (Marriage_to row) then
    First_name row ++ " " ++ last_token is_space (Marriage_to row)
  else if truthy (Married_Name row) then
    First_name row ++ " " ++ Married_Name row
  else
    First_name row ++ " " ++ Last_name row.

End Spec.

(** A woman whose husband's name holds a tab after its last space. *)
Definition row_tab : Row :=
  mkRow "Eve" "Poe" "F" "" "" "" ("John Paul" ++ String "009" "Smith") "".

(** A woman whose husband's name ends with a space. *)
Definition row_trailing : Row :=
  mkRow "Eve" "Poe" "F" "" "" "" "Jane " "Jones".

Definition row_married_name : Row :=
  mkRow "Eve" "Poe" "F" "" "" "" "" "Jones".

Definition row_male : Row :=
  mkRow "Tom" "Lee" "M" "Mar. 03 1975" "" "Jun. 15 2000" "Ann Lee" "Poe".

(** ** Vocabulary of the specification: events *)

Section EventSpec.

Variable strptime : string -> res datetime.

Definition birthday_event (row : Row) (d : datetime) : Event :=
  mkEvent d ("Birthday of " ++ normalize_name row
             ++ " (born in " ++ str (year d) ++ ")").

Definition anniversary_event (row : Row) (d : datetime) : Event :=
  mkEvent d ("Anniversary of " ++ First_name row ++ " " ++ Last_name row
             ++ " and " ++ Marriage_to row
             ++ " (married in " ++ str (year d) ++ ")").

(** [e] is the birthday of [row]: its birth date is there and parses. *)
Definition is_birthday_of (row : Row) (e : Event) : Prop :=
  Birth_date row <> "" /\
  exists d, strptime (Birth_date row) = Ok d /\ e = birthday_event row d.

(** [e] is the anniversary of [row], whose marriage date parses. *)
Definition is_anniversary_of (row : Row) (e : Event) : Prop :=
  exists d, strptime (Marriage_date row) = Ok d /\ e = anniversary_event row d.

(** The records that get an anniversary: a marriage date and gender M. *)
Definition has_anniversary (row : Row) : bool :=
  negb (String.eqb (Marriage_date row) "") && String.eqb (Gender row) "M".

(** The birthday events of the rows, in row order; a birth date that is
    missing or does not parse gives none. *)
Definition birthday_of (row : Row) : list Event :=
  if String.eqb (Birth_date row) "" then []
  else match strptime (Birth_date row) with
       | Ok d => [birthday_event row d]
       | Raise _ => []
       end.

Definition birthdays (rows : list Row) : list Event :=
  flat_map birthday_of rows.

(** The anniversary events of the rows, in row order, unless a marriage
    date that is used does not parse. *)
Fixpoint anniversaries (rows : list Row) : res (list Event) :=
  match rows with
  | [] => Ok []
  | row :: rows' =>
      if has_anniversary row then
        d <- strptime (Marriage_date row) ;;
        es <- anniversaries rows' ;;
        Ok (anniversary_event row d :: es)
      else anniversaries rows'
  end.

End EventSpec.

(** The record with its birth date left out. *)
Definition without_birthday (row : Row) : Row :=
  mkRow (First_name row) (Last_name row) (Gender row) ""
        (Death_date row) (Marriage_date row) (Marriage_to row)
        (Married_Name row).

(** A person is referred to by first and last name. *)
Definition full_name (row : Row) : string :=
  First_name row ++ " " ++ Last_name row.

(** The text of [e] names the person of [row]. *)
Definition references (e : Event) (row : Row) : Prop :=
  exists p q, reason e = (p ++ full_name row ++ q)%string.

(** No event of the result names a person whose record has a death date. *)
Definition never_references_deceased
           (strptime : string -> res datetime) (rows : list Row) : Prop :=
  forall events_by_month m b e row,
    parse_input strptime rows = Ok events_by_month ->
    In (m, b) events_by_month -> In e b ->
    In row rows -> Death_date row <> "" ->
    ~ references e row.

(** ** Vocabulary of the specification: grouping and order *)

Definition month_of (e : Event) : Z := month (date e).

(** The months of a list, each at its first occurrence. *)
Fixpoint first_seen (l : list Z) : list Z :=
  match l with
  | [] => []
  | m :: l' => m :: filter (fun k => negb (k =? m)) (first_seen l')
  end.

(** The events of month [m], in the order of the list. *)
Definition bucket (m : Z) (events : list Event) : list Event :=
  filter (fun e => month_of e =? m) events.

(** Text order: by code point at the first difference; a proper prefix
    comes first. *)
Inductive str_lt : string -> string -> Prop :=
| str_lt_prefix c t : str_lt EmptyString (String c t)
| str_lt_head c1 c2 t1 t2 :
    (N_of_ascii c1 < N_of_ascii c2)%N -> str_lt (String c1 t1) (String c2 t2)
| str_lt_tail c t1 t2 : str_lt t1 t2 -> str_lt (String c t1) (String c t2).

(** The order on pairs (day, reason). *)
Definition key_lt (k1 k2 : Z * string) : Prop :=
  fst k1 < fst k2 \/ (fst k1 = fst k2 /\ str_lt (snd k1) (snd k2)).

Definition key_le (k1 k2 : Z * string) : Prop := k1 = k2 \/ key_lt k1 k2.

(** Two keys are the same pair. *)
Definition key_eqb (k1 k2 : Z * string) : bool :=
  (fst k1 =? fst k2) && String.eqb (snd k1) (snd k2).

Definition event_key (e : Event) : Z * string := (day (date e), reason e).

Definition event_le (e1 e2 : Event) : Prop :=
  key_le (event_key e1) (event_key e2).

Definition event_lt (e1 e2 : Event) : Prop :=
  key_lt (event_key e1) (event_key e2).

(** [x] stands somewhere before [y] in [l]. *)
Definition occurs_before {A} (x y : A) (l : list A) : Prop :=
  exists l1 l2 l3, l = l1 ++ x :: l2 ++ y :: l3.

(** ** Sample inputs *)

Definition tom : Row :=
  mkRow "Tom" "Lee" "M" "Mar. 03 1975" "" "Jun. 15 2000" "Ann Lee" "".

(** Tom's wife, who has died. *)
Definition ann_deceased : Row :=
  mkRow "Ann" "Lee" "F" "Jun. 02 1977" "Jan. 01 2010" "Jun. 15 2000"
        "Tom Lee" "".

Definition eve : Row :=
  mkRow "Eve" "Poe" "F" "Jun. 05 1980" "" "" "" "".

Definition kim : Row :=
  mkRow "Kim" "Poe" "F" "Jun. 03 1982" "" "" "" "".

(** A birth date the calendar does not have. *)
Definition feb30 : Row :=
  mkRow "Bob" "Ray" "M" "Feb. 30 1990" "" "" "" "".

(** A marriage date that is not in the format. *)
Definition bad_marriage : Row :=
  mkRow "Sam" "Ray" "M" "" "" "15/06/2000" "Amy Ray" "".

Definition sample_rows : list Row := [eve; tom; ann_deceased; kim; feb30].

Definition sample_events : list Event :=
  [birthday_event eve (mkDatetime 1980 6 5);
   birthday_event tom (mkDatetime 1975 3 3);
   birthday_event kim (mkDatetime 1982 6 3);
   anniversary_event tom (mkDatetime 2000 6 15)].

Definition sample_result : Dict.t (list Event) :=
  [(6, [birthday_event kim (mkDatetime 1982 6 3);
        birthday_event eve (mkDatetime 1980 6 5);
        anniversary_event tom (mkDatetime 2000 6 15)]);
   (3, [birthday_event tom (mkDatetime 1975 3 3)])].

(** ** Vocabulary for the report and for the birthday loop *)

(** The records that get a birthday: a birth date that parses. *)
Definition has_birthday (strptime : string -> res datetime) (row : Row)
  : bool :=
  negb (String.eqb (Birth_date row) "")
  && match strptime (Birth_date row) with
     | Ok _ => true
     | Raise _ => false
     end.

(** The marriage date of the record parses. *)
Definition marriage_parses (strptime : string -> res datetime) (row : Row)
  : Prop :=
  exists d, strptime (Marriage_date row) = Ok d.

(** The parser only gives months of the calendar. *)
Definition calendar_months (strptime : string -> res datetime) : Prop :=
  forall s d, strptime s = Ok d -> 1 <= month d <= 12.

Module Story.

Import Report.

Definition title : flowable :=
  Paragraph "<b>Family Birthdays and Anniversaries</b>" Title.

Definition heading (name : string) : flowable :=
  Paragraph ("<font size=12><b>" ++ name ++ "</b></font>") Normal.

Definition line (e : Event) : flowable :=
  Paragraph (str (day (date e)) ++ " " ++ reason e) Normal.

(** The name [month_name] has at an index, the empty text where it has
    none. *)
Definition name_at (m : Z) : string :=
  match getitem month_name m with
  | Ok name => name
  | Raise _ => EmptyString
  end.

(** The part of the document for one month: its heading, then a line for
    each event. *)
Definition section (kv : Z * list Event) : list flowable :=
  heading (name_at (fst kv)) :: map line (snd kv).

(** The document: the title, the first section, and every further
    section after a spacer. *)
Definition story (d : Dict.t (list Event)) : list flowable :=
  title ::
  match d with
  | [] => []
  | kv :: d' => section kv ++ flat_map (fun kv' => Spacer :: section kv') d'
  end.

Definition is_spacer (f : flowable) : bool :=
  match f with
  | Spacer => true
  | Paragraph _ _ => false
  end.

End Story.

(** ** A birth date that fails beside a marriage date *)

(** A man whose birth date does not parse and whose marriage date does. *)
Definition feb30_married : Row :=
  mkRow "Bob" "Ray" "M" "Feb. 30 1990" "" "Jun. 15 2000" "Amy Ray" "".

(** The same man with a marriage date that does not parse either. *)
Definition feb30_bad_marriage : Row :=
  mkRow "Bob" "Ray" "M" "Feb. 30 1990" "" "15/06/2000" "Amy Ray" "".

(** Extraction raises nothing and gives no event, birthday or
    anniversary, for the record. *)
Definition no_event_and_no_error
           (strptime : string -> res datetime) (rows : list Row) (row : Row)
  : Prop :=
  exists sd,
    special_days strptime rows = Ok sd /\
    forall e, In e sd ->
      ~ is_birthday_of strptime row e /\ ~ is_anniversary_of strptime row e.

(** * Properties of name resolution *)

Lemma contains_append p (a b : string) :
  Spec.contains p (a ++ b) = Spec.contains p a || Spec.contains p b.
Proof.
  induction a as [|x a IH]; simpl; [reflexivity|].
  now rewrite IH, orb_assoc.
Qed.

(** [rpartition] finds a separator exactly when the text holds one. *)
Lemma rpartition_none sep s :
  rpartition sep s = None <-> Spec.contains (Ascii.eqb sep) s = false.
Proof.
  induction s as [|c t IH]; simpl; [tauto|].
  rewrite (Ascii.eqb_sym sep c).
  destruct (rpartition sep t) as [[b a]|].
  - assert (Spec.contains (Ascii.eqb sep) t <> false) as Hne
        by (intro H; apply IH in H; discriminate).
    destruct (Spec.contains (Ascii.eqb sep) t); [|congruence].
    rewrite orb_true_r. split; discriminate.
  - assert (Spec.contains (Ascii.eqb sep) t = false) as -> by now apply IH.
    rewrite orb_false_r. destruct (Ascii.eqb c sep); split; congruence.
Qed.

(** What [rpartition] returns is the text after the last separator. *)
Lemma rpartition_some sep s b a :
  rpartition sep s = Some (b, a) ->
  s = (b ++ String sep a)%string /\ a = Spec.last_token (Ascii.eqb sep) s.
Proof.
  revert b; induction s as [|c t IH]; intros b; simpl; [discriminate|].
  destruct (rpartition sep t) as [[b' a']|] eqn:E.
  - intros [= <- <-]. destruct (IH _ eq_refl) as [-> Ha].
    split; [reflexivity|].
    rewrite contains_append; simpl. rewrite Ascii.eqb_refl, orb_true_r.
    exact Ha.
  - apply rpartition_none in E. rewrite E, (Ascii.eqb_sym sep c).
    destruct (Ascii.eqb c sep) eqn:Ec; [|discriminate].
    intros [= <- <-]. apply Ascii.eqb_eq in Ec. now subst c.
Qed.

Lemma rsplit1_length sep s :
  Nat.eqb (List.length (rsplit1 sep s)) 2 = Spec.contains (Ascii.eqb sep) s.
Proof.
  unfold rsplit1. destruct (rpartition sep s) as [[b a]|] eqn:E; simpl.
  - destruct (Spec.contains (Ascii.eqb sep) s) eqn:C; [reflexivity|].
    apply rpartition_none in C. congruence.
  - symmetry. now apply rpartition_none.
Qed.

Lemma rsplit1_last sep s :
  Spec.contains (Ascii.eqb sep) s = true ->
  item (rsplit1 sep s) 1 = Spec.last_token (Ascii.eqb sep) s.
Proof.
  unfold rsplit1. intros C.
  destruct (rpartition sep s) as [[b a]|] eqn:E; simpl.
  - now apply rpartition_some in E.
  - apply rpartition_none in E. congruence.
Qed.

Lemma gender_not_M row :
  Gender row <> "M" -> String.eqb (Gender row) "M" = false.
Proof. intros H. now apply String.eqb_neq. Qed.

(** For a record that is not male, [normalize_name] is the rule of the
    specification with the token taken after the last space character. *)
Lemma normalize_name_not_M row :
  Gender row <> "M" -> normalize_name row = Spec.resolve_name_sp row.
Proof.
  intros HG. unfold normalize_name, Spec.resolve_name_sp.
  rewrite (gender_not_M _ HG); cbv zeta.
  rewrite rsplit1_length. fold Spec.is_space.
  destruct (Spec.contains Spec.is_space (Marriage_to row)) eqn:C;
    [|reflexivity].
  now rewrite (rsplit1_last _ _ C).
Qed.
Example sample_special_days :
  special_days Strptime.strptime sample_rows = Ok sample_events.
Proof. reflexivity. Qed.

Example sample_parse_input :
  parse_input Strptime.strptime sample_rows = Ok sample_result.
Proof. reflexivity. Qed.

Lemma last_token_split p (b a : string) c :
  p c = true -> Spec.contains p a = false ->
  Spec.last_token p (b ++ String c a) = a.
Proof.
  intros Hc Ha. induction b as [|x b IH]; simpl.
  - now rewrite Ha, Hc.
  - rewrite contains_append; simpl. now rewrite Hc, orb_true_r.
Qed.

Lemma contains_split p (b a : string) c :
  p c = true -> Spec.contains p (b ++ String c a) = true.
Proof.
  intros Hc. rewrite contains_append; simpl. now rewrite Hc, orb_true_r.
Qed.

(** C9.  A record whose gender is exactly M resolves to its first name, a
    space and its last name; the fields 'Marriage to' and 'Married Name'
    play no part: two male records with the same first and last names
    resolve to the same name. *)
Theorem normalize_name_male row :
  Gender row = "M" ->
  normalize_name row = (First_name row ++ " " ++ Last_name row)%string
  /\ forall row', Gender row' = "M" ->
       First_name row' = First_name row -> Last_name row' = Last_name row ->
       normalize_name row' = normalize_name row.
Proof.
  intros HG. unfold normalize_name. rewrite HG. split; [reflexivity|].
  intros row' HG' -> ->. now rewrite HG'.
Qed.

Lemma normalize_name_male_witness :
  Gender row_male = "M" /\
  normalize_name row_male = "Tom Lee" /\
  forall row', Gender row' = "M" ->
    First_name row' = "Tom" -> Last_name row' = "Lee" ->
    normalize_name row' = normalize_name row_male.
Proof.
  split; [reflexivity|].
  apply (normalize_name_male row_male). reflexivity.
Defined.

(** C1, as the code has it.  For a record whose gender is not exactly M,
    the resolved name is, in this order of precedence: when 'Marriage to'
    holds a space character (U+0020), the first name, a space and the
    text after the last space character of 'Marriage to'; otherwise, when
    'Married Name' is not empty, the first name, a space and the married
    name; otherwise the first name, a space and the last name.  Only the
    space character delimits the token: other white space stays in it. *)
Theorem normalize_name_not_male row :
  Gender row <> "M" ->
  normalize_name row = Spec.resolve_name_sp row
  /\ (forall b a, Marriage_to row = (b ++ " " ++ a)%string ->
        Spec.contains Spec.is_space a = false ->
        normalize_name row = (First_name row ++ " " ++ a)%string)
  /\ (Spec.contains Spec.is_space (Marriage_to row) = false ->
        Married_Name row <> "" ->
        normalize_name row = (First_name row ++ " " ++ Married_Name row)%string)
  /\ (Spec.contains Spec.is_space (Marriage_to row) = false ->
        Married_Name row = "" ->
        normalize_name row = (First_name row ++ " " ++ Last_name row)%string).
Proof.
  intros HG. rewrite (normalize_name_not_M row HG).
  unfold Spec.resolve_name_sp. repeat split.
  - intros b a E Ha. rewrite E. simpl append.
    rewrite contains_split by reflexivity.
    now rewrite last_token_split.
  - intros -> Hm. destruct (Married_Name row); [congruence | reflexivity].
  - intros -> ->. reflexivity.
Qed.

Lemma normalize_name_not_male_witness :
  Gender row_tab <> "M" /\
  normalize_name row_tab = Spec.resolve_name_sp row_tab /\
  normalize_name row_tab = ("Eve Paul" ++ String "009" "Smith")%string.
Proof.
  split; [discriminate|].
  split; [apply (normalize_name_not_male row_tab); discriminate|].
  destruct (normalize_name_not_male row_tab) as (_ & H & _); [discriminate|].
  apply (H "John" ("Paul" ++ String "009" "Smith")%string); reflexivity.
Defined.

(** C1, as stated, fails.  With a tab after the last space of 'Marriage
    to', the last token delimited by white space is the text after the
    tab, while the code keeps everything after the last space. *)
Lemma normalize_name_whitespace_counterexample :
  Gender row_tab <> "M" /\
  Spec.contains Spec.is_space (Marriage_to row_tab) = true /\
  Spec.last_token Spec.is_whitespace (Marriage_to row_tab) = "Smith" /\
  Spec.resolve_name_ws row_tab = "Eve Smith" /\
  normalize_name row_tab <> Spec.resolve_name_ws row_tab.
Proof.
  split; [discriminate|].
  repeat split; try reflexivity.
  vm_compute. discriminate.
Qed.

(** C10.  For a record that is not male and whose 'Marriage to' ends with
    a space, the spouse rule applies with an empty token: the resolved
    name is the first name followed by a space, whatever 'Married Name'
    holds. *)
Theorem normalize_name_trailing_space row b :
  Gender row <> "M" ->
  Marriage_to row = (b ++ " ")%string ->
  normalize_name row = (First_name row ++ " ")%string.
Proof.
  intros HG E. rewrite (normalize_name_not_M row HG).
  unfold Spec.resolve_name_sp. rewrite E.
  rewrite contains_split by reflexivity.
  now rewrite last_token_split.
Qed.

Lemma normalize_name_trailing_space_witness :
  Gender row_trailing <> "M" /\
  Marriage_to row_trailing = "Jane " /\
  Married_Name row_trailing = "Jones" /\
  normalize_name row_trailing = "Eve ".
Proof.
  split; [discriminate|]. do 2 (split; [reflexivity|]).
  apply (normalize_name_trailing_space row_trailing "Jane");
    [discriminate | reflexivity].
Defined.

(** * Properties of event extraction *)

Section Extraction.

Variable strptime : string -> res datetime.

Lemma truthy_eqb s : truthy s = negb (String.eqb s "").
Proof. now destruct s. Qed.

Lemma truthy_false s : truthy s = false <-> s = "".
Proof. destruct s; simpl; split; congruence. Qed.

Lemma truthy_true s : truthy s = true <-> s <> "".
Proof. destruct s; simpl; split; congruence. Qed.

(** One turn of the birthday loop never raises, and adds the birthday of
    the row when there is one. *)
Lemma birthday_step_spec row sd :
  birthday_step strptime row sd = Ok (sd ++ birthday_of strptime row).
Proof.
  unfold birthday_step, try_except_pass, birthday_body, birthday_of.
  rewrite truthy_eqb.
  destruct (String.eqb (Birth_date row) ""); simpl.
  - now rewrite app_nil_r.
  - destruct (strptime (Birth_date row)); simpl; [reflexivity|].
    now rewrite app_nil_r.
Qed.

Lemma birthday_loop_spec rows sd :
  for_in rows (birthday_step strptime) sd
  = Ok (sd ++ birthdays strptime rows).
Proof.
  revert sd. induction rows as [|row rows IH]; intros sd; cbn [for_in].
  - simpl. now rewrite app_nil_r.
  - rewrite birthday_step_spec. cbn [bind]. rewrite IH.
    simpl. now rewrite app_assoc.
Qed.

Lemma anniversary_step_spec row sd :
  anniversary_step strptime row sd
  = if has_anniversary row then
      d <- strptime (Marriage_date row) ;;
      Ok (sd ++ [anniversary_event row d])
    else Ok sd.
Proof.
  unfold anniversary_step, has_anniversary. now rewrite truthy_eqb.
Qed.

Lemma anniversary_loop_spec rows sd :
  for_in rows (anniversary_step strptime) sd
  = (es <- anniversaries strptime rows ;; Ok (sd ++ es)).
Proof.
  revert sd. induction rows as [|row rows IH]; intros sd; cbn [for_in].
  - simpl. now rewrite app_nil_r.
  - rewrite anniversary_step_spec. cbn [anniversaries].
    destruct (has_anniversary row); simpl; [|apply IH].
    destruct (strptime (Marriage_date row)) as [d|e]; simpl; [|reflexivity].
    rewrite IH.
    destruct (anniversaries strptime rows) as [es|e]; simpl; [|reflexivity].
    now rewrite <- app_assoc.
Qed.

(** [special_days] is the birthdays of the surviving rows followed by
    their anniversaries. *)
Lemma special_days_spec rows :
  special_days strptime rows
  = (es <- anniversaries strptime (alive rows) ;;
     Ok (birthdays strptime (alive rows) ++ es)).
Proof.
  unfold special_days. rewrite birthday_loop_spec. simpl.
  apply anniversary_loop_spec.
Qed.

Lemma alive_app l1 l2 : alive (l1 ++ l2) = alive l1 ++ alive l2.
Proof. apply filter_app. Qed.

Lemma alive_cons_deceased row rows :
  Death_date row <> "" -> alive (row :: rows) = alive rows.
Proof.
  intros H. unfold alive; simpl.
  apply truthy_true in H. now rewrite H.
Qed.

Lemma alive_cons_surviving row rows :
  Death_date row = "" -> alive (row :: rows) = row :: alive rows.
Proof.
  intros H. unfold alive; simpl.
  apply truthy_false in H. now rewrite H.
Qed.

Lemma In_alive row rows :
  In row (alive rows) <-> In row rows /\ Death_date row = "".
Proof.
  unfold alive. rewrite filter_In, negb_true_iff, truthy_false. tauto.
Qed.

Lemma parse_input_alive rows rows' :
  alive rows = alive rows' ->
  parse_input strptime rows = parse_input strptime rows'.
Proof.
  intros E. unfold parse_input, special_days. now rewrite E.
Qed.

(** The anniversaries succeed exactly when every marriage date that is
    used parses; the events then match the rows that have one. *)
Lemma anniversaries_ok rows es :
  anniversaries strptime rows = Ok es ->
  Forall2 (is_anniversary_of strptime) (filter has_anniversary rows) es.
Proof.
  revert es. induction rows as [|row rows IH]; intros es; simpl.
  - intros [= <-]. constructor.
  - destruct (has_anniversary row); [|apply IH].
    destruct (strptime (Marriage_date row)) as [d|e] eqn:Ed; simpl;
      [|discriminate].
    destruct (anniversaries strptime rows) as [es'|e]; simpl; [|discriminate].
    intros [= <-]. constructor; [|now apply IH].
    exists d. now split.
Qed.

Lemma anniversaries_raise rows row e :
  In row rows -> has_anniversary row = true ->
  strptime (Marriage_date row) = Raise e ->
  exists e', anniversaries strptime rows = Raise e'.
Proof.
  intros Hin Hh Hbad. induction rows as [|r rows IH]; [destruct Hin|].
  simpl. destruct Hin as [-> | Hin].
  - rewrite Hh, Hbad. simpl. eauto.
  - destruct (IH Hin) as [e' He'].
    destruct (has_anniversary r); [|eauto].
    destruct (strptime (Marriage_date r)); simpl; [|eauto].
    rewrite He'. simpl. eauto.
Qed.

Lemma birthdays_app l1 l2 :
  birthdays strptime (l1 ++ l2)
  = birthdays strptime l1 ++ birthdays strptime l2.
Proof. apply flat_map_app. Qed.

Lemma In_birthdays e rows :
  In e (birthdays strptime rows) ->
  exists row, In row rows /\ is_birthday_of strptime row e.
Proof.
  unfold birthdays. rewrite in_flat_map. intros (row & Hin & He).
  exists row. split; [assumption|].
  unfold birthday_of in He.
  destruct (String.eqb (Birth_date row) "") eqn:Eb; [destruct He|].
  apply String.eqb_neq in Eb. split; [assumption|].
  destruct (strptime (Birth_date row)) as [d|]; [|destruct He].
  destruct He as [<- | []]. now exists d.
Qed.

End Extraction.

(** * Properties of the month dictionary *)

Section DictFacts.

Context {V : Type}.

Lemma keys_app (d1 d2 : Dict.t V) :
  Dict.keys (d1 ++ d2) = Dict.keys d1 ++ Dict.keys d2.
Proof. apply map_app. Qed.

Lemma get_app_notin (d1 d2 : Dict.t V) k :
  ~ In k (Dict.keys d1) -> Dict.get (d1 ++ d2) k = Dict.get d2 k.
Proof.
  induction d1 as [|[k' v] d1 IH]; simpl; intros H; [reflexivity|].
  destruct (Z.eqb_spec k' k) as [->|_]; [tauto|].
  apply IH. tauto.
Qed.

Lemma set_app_notin (d1 d2 : Dict.t V) k v :
  ~ In k (Dict.keys d1) -> Dict.set (d1 ++ d2) k v = d1 ++ Dict.set d2 k v.
Proof.
  induction d1 as [|[k' v'] d1 IH]; simpl; intros H; [reflexivity|].
  destruct (Z.eqb_spec k' k) as [->|_]; [tauto|].
  rewrite IH; tauto.
Qed.

Lemma get_notin (d : Dict.t V) k :
  ~ In k (Dict.keys d) -> Dict.get d k = None.
Proof.
  intros H. rewrite <- (app_nil_r d). now rewrite get_app_notin.
Qed.

Lemma set_notin (d : Dict.t V) k v :
  ~ In k (Dict.keys d) -> Dict.set d k v = d ++ [(k, v)].
Proof.
  intros H. rewrite <- (app_nil_r d) at 1. now rewrite set_app_notin.
Qed.

(** A dictionary tabulated from its keys. *)
Lemma get_tabulate (f : Z -> V) ks k :
  In k ks -> Dict.get (map (fun m => (m, f m)) ks) k = Some (f k).
Proof.
  induction ks as [|m ks IH]; simpl; [tauto|].
  destruct (Z.eqb_spec m k) as [->|Hne]; [reflexivity|].
  intros [?|?]; [congruence | auto].
Qed.

Lemma keys_tabulate (f : Z -> V) ks :
  Dict.keys (map (fun m => (m, f m)) ks) = ks.
Proof.
  unfold Dict.keys. rewrite map_map. simpl. apply map_id.
Qed.

Lemma set_tabulate (f : Z -> V) ks k v :
  NoDup ks -> In k ks ->
  Dict.set (map (fun m => (m, f m)) ks) k v
  = map (fun m => (m, if m =? k then v else f m)) ks.
Proof.
  induction 1 as [|m ks Hm Hnd IH]; simpl; [tauto|].
  destruct (Z.eqb_spec m k) as [->|Hne].
  - intros _. f_equal. apply map_ext_in. intros m Hin.
    destruct (Z.eqb_spec m k) as [->|_]; [tauto | reflexivity].
  - intros [?|Hin]; [congruence|]. now rewrite IH.
Qed.

End DictFacts.

Lemma In_first_seen m l : In m (first_seen l) <-> In m l.
Proof.
  induction l as [|x l IH]; simpl; [tauto|].
  rewrite filter_In, IH, negb_true_iff, Z.eqb_neq.
  destruct (Z.eq_dec x m); [tauto|]. intuition congruence.
Qed.

Lemma NoDup_first_seen l : NoDup (first_seen l).
Proof.
  induction l as [|x l IH]; simpl; constructor.
  - rewrite filter_In, negb_true_iff, Z.eqb_neq. tauto.
  - now apply NoDup_filter.
Qed.

Lemma first_seen_snoc_in l m :
  In m l -> first_seen (l ++ [m]) = first_seen l.
Proof.
  induction l as [|x l IH]; simpl; [tauto|].
  destruct (in_dec Z.eq_dec m l) as [Hin|Hnin].
  - intros _. now rewrite IH.
  - intros [->|?]; [|tauto]. clear IH. f_equal.
    assert (forall l, ~ In m l -> first_seen (l ++ [m]) = first_seen l ++ [m])
      as Hs.
    { clear. induction l as [|x l IH]; simpl; intros H; [reflexivity|].
      rewrite IH by tauto. rewrite filter_app; simpl.
      destruct (Z.eqb_spec m x); [subst; tauto | reflexivity]. }
    rewrite Hs by assumption. rewrite filter_app; simpl.
    rewrite Z.eqb_refl; simpl. apply app_nil_r.
Qed.

Lemma first_seen_snoc_notin l m :
  ~ In m l -> first_seen (l ++ [m]) = first_seen l ++ [m].
Proof.
  induction l as [|x l IH]; simpl; intros H; [reflexivity|].
  rewrite IH by tauto. rewrite filter_app; simpl.
  destruct (Z.eqb_spec m x); [subst; tauto | reflexivity].
Qed.

Lemma bucket_snoc m l e :
  bucket m (l ++ [e]) = bucket m l ++ (if month_of e =? m then [e] else []).
Proof. unfold bucket. now rewrite filter_app. Qed.

Lemma bucket_empty m l : ~ In m (map month_of l) -> bucket m l = [].
Proof.
  unfold bucket. induction l as [|e l IH]; simpl; intros H; [reflexivity|].
  destruct (Z.eqb_spec (month_of e) m); [tauto|]. apply IH. tauto.
Qed.

(** One event more in the dictionary of the events read so far. *)
Lemma append_grouped l e :
  Dict.append
    (map (fun m => (m, bucket m l)) (first_seen (map month_of l)))
    (month_of e) e
  = map (fun m => (m, bucket m (l ++ [e])))
        (first_seen (map month_of (l ++ [e]))).
Proof.
  unfold Dict.append, Dict.getitem. rewrite map_app; simpl.
  destruct (in_dec Z.eq_dec (month_of e) (map month_of l)) as [Hin|Hnin].
  - rewrite get_tabulate by now apply In_first_seen.
    rewrite set_tabulate
      by (try apply NoDup_first_seen; now apply In_first_seen).
    rewrite first_seen_snoc_in by assumption.
    apply map_ext. intros m. rewrite bucket_snoc.
    destruct (Z.eqb_spec m (month_of e)) as [->|Hne].
    + now rewrite Z.eqb_refl.
    + destruct (Z.eqb_spec (month_of e) m); [congruence|].
      now rewrite app_nil_r.
  - assert (~ In (month_of e)
              (Dict.keys (map (fun m => (m, bucket m l))
                              (first_seen (map month_of l))))) as Hk
        by (rewrite keys_tabulate, In_first_seen; assumption).
    rewrite (get_notin _ _ Hk), (set_notin _ _ _ Hk).
    rewrite (set_app_notin _ _ _ _ Hk). simpl. rewrite Z.eqb_refl.
    rewrite first_seen_snoc_notin by assumption.
    rewrite map_app; simpl. f_equal.
    + apply map_ext_in. intros m Hm. rewrite bucket_snoc.
      destruct (Z.eqb_spec (month_of e) m) as [E|_];
        [subst m|now rewrite app_nil_r].
      rewrite In_first_seen in Hm. tauto.
    + rewrite bucket_snoc, Z.eqb_refl, (bucket_empty _ _ Hnin). reflexivity.
Qed.

Lemma group_loop_spec l sd :
  fold_left add_event sd
            (map (fun m => (m, bucket m l)) (first_seen (map month_of l)))
  = map (fun m => (m, bucket m (l ++ sd)))
        (first_seen (map month_of (l ++ sd))).
Proof.
  revert l. induction sd as [|e sd IH]; intros l; simpl.
  - now rewrite app_nil_r.
  - unfold add_event at 2. fold (month_of e). rewrite append_grouped, IH.
    now rewrite <- app_assoc.
Qed.

(** [group_by_month] lists the months in the order they are first seen,
    each with its events in the order of the list. *)
Lemma group_by_month_spec sd :
  group_by_month sd
  = map (fun m => (m, bucket m sd)) (first_seen (map month_of sd)).
Proof. apply (group_loop_spec [] sd). Qed.

(** [sort_each_month] sorts every value and leaves the keys as they
    are. *)
Lemma sort_loop_spec (d1 d2 : Dict.t (list Event)) :
  NoDup (Dict.keys (d1 ++ d2)) ->
  fold_left sort_month (Dict.keys d2) (d1 ++ d2)
  = d1 ++ map (fun kv =>
                 (fst kv, Order.sorted Order.tuple_ltb sort_key (snd kv)))
              d2.
Proof.
  revert d1. induction d2 as [|[m l] d2 IH]; intros d1 Hnd; simpl;
    [reflexivity|].
  assert (~ In m (Dict.keys d1)) as Hm.
  { rewrite keys_app in Hnd. simpl in Hnd.
    apply NoDup_remove_2 in Hnd. rewrite in_app_iff in Hnd. tauto. }
  unfold sort_month at 2, Dict.getitem.
  rewrite (get_app_notin _ _ _ Hm). simpl. rewrite Z.eqb_refl.
  rewrite (set_app_notin _ _ _ _ Hm). simpl. rewrite Z.eqb_refl.
  change (d1 ++ (m, Order.sorted Order.tuple_ltb sort_key l) :: d2)
    with (d1 ++ [(m, Order.sorted Order.tuple_ltb sort_key l)] ++ d2).
  rewrite app_assoc, IH.
  - now rewrite <- app_assoc.
  - rewrite keys_app in *. rewrite keys_app. simpl in *.
    now rewrite <- app_assoc.
Qed.

Lemma sort_each_month_spec (d : Dict.t (list Event)) :
  NoDup (Dict.keys d) ->
  sort_each_month d
  = map (fun kv => (fst kv, Order.sorted Order.tuple_ltb sort_key (snd kv))) d.
Proof. intros H. apply (sort_loop_spec [] d H). Qed.

(** The dictionary [parse_input] returns, from the list of events. *)
Lemma grouped_sorted_spec sd :
  sort_each_month (group_by_month sd)
  = map (fun m => (m, Order.sorted Order.tuple_ltb sort_key (bucket m sd)))
        (first_seen (map month_of sd)).
Proof.
  rewrite sort_each_month_spec.
  - rewrite group_by_month_spec, map_map. reflexivity.
  - rewrite group_by_month_spec, keys_tabulate. apply NoDup_first_seen.
Qed.

Lemma parse_input_spec strptime rows events_by_month :
  parse_input strptime rows = Ok events_by_month ->
  exists sd,
    special_days strptime rows = Ok sd /\
    events_by_month
    = map (fun m => (m, Order.sorted Order.tuple_ltb sort_key (bucket m sd)))
          (first_seen (map month_of sd)).
Proof.
  unfold parse_input.
  destruct (special_days strptime rows) as [sd|e]; simpl; [|discriminate].
  intros [= <-]. exists sd. split; [reflexivity|]. apply grouped_sorted_spec.
Qed.

(** * Properties of the order and of [sorted] *)

Lemma N_of_ascii_inj c1 c2 : N_of_ascii c1 = N_of_ascii c2 -> c1 = c2.
Proof.
  intros H. rewrite <- (ascii_N_embedding c1), <- (ascii_N_embedding c2).
  now rewrite H.
Qed.

Lemma str_ltb_spec s1 s2 : Order.str_ltb s1 s2 = true <-> str_lt s1 s2.
Proof.
  revert s2. induction s1 as [|c1 t1 IH]; intros [|c2 t2]; simpl.
  - split; [discriminate | inversion 1].
  - split; [constructor | reflexivity].
  - split; [discriminate | inversion 1].
  - unfold Order.code.
    destruct (N.eqb_spec (N_of_ascii c1) (N_of_ascii c2)) as [E|Hne].
    + apply N_of_ascii_inj in E. subst c2. rewrite IH. split.
      * now constructor.
      * inversion 1; subst; [lia | assumption].
    + rewrite N.ltb_lt. split.
      * now constructor.
      * inversion 1; subst; [assumption | congruence].
Qed.

Lemma str_lt_irrefl s : ~ str_lt s s.
Proof.
  induction s as [|c t IH]; inversion 1; subst; [lia | auto].
Qed.

Lemma str_lt_trans s1 s2 s3 : str_lt s1 s2 -> str_lt s2 s3 -> str_lt s1 s3.
Proof.
  intros H12. revert s3.
  induction H12 as [c t | c1 c2 t1 t2 Hc | c t1 t2 H IH]; intros s3 H23;
    inversion H23; subst.
  - constructor 1.
  - constructor 1.
  - constructor 2. lia.
  - now constructor 2.
  - now constructor 2.
  - constructor 3. now apply IH.
Qed.

Lemma str_lt_total s1 s2 : s1 = s2 \/ str_lt s1 s2 \/ str_lt s2 s1.
Proof.
  revert s2. induction s1 as [|c1 t1 IH]; intros [|c2 t2].
  - now left.
  - right; left; constructor.
  - right; right; constructor.
  - destruct (N.lt_total (N_of_ascii c1) (N_of_ascii c2)) as [H|[H|H]].
    + right; left; now constructor.
    + apply N_of_ascii_inj in H. subst c2.
      destruct (IH t2) as [->|[H|H]];
        [now left | right; left | right; right]; now constructor 3.
    + right; right; now constructor.
Qed.

Lemma tuple_ltb_spec k1 k2 : Order.tuple_ltb k1 k2 = true <-> key_lt k1 k2.
Proof.
  unfold Order.tuple_ltb, key_lt.
  destruct (Z.eqb_spec (fst k1) (fst k2)) as [E|Hne]; simpl.
  - destruct (String.eqb_spec (snd k1) (snd k2)) as [Es|Hs]; simpl.
    + rewrite Es. split; [discriminate|].
      intros [H|[_ H]]; [lia | now apply str_lt_irrefl in H].
    + rewrite str_ltb_spec. split; [tauto|]. intros [H|[_ H]]; [lia | exact H].
  - rewrite Z.ltb_lt. split; [tauto|]. intros [H|[H _]]; [exact H | congruence].
Qed.

Lemma key_lt_irrefl k : ~ key_lt k k.
Proof. intros [H|[_ H]]; [lia | now apply str_lt_irrefl in H]. Qed.

Lemma key_lt_trans k1 k2 k3 : key_lt k1 k2 -> key_lt k2 k3 -> key_lt k1 k3.
Proof.
  unfold key_lt. intros [H1|[E1 H1]] [H2|[E2 H2]].
  - left; lia.
  - left; lia.
  - left; lia.
  - right. split; [congruence|]. eapply str_lt_trans; eassumption.
Qed.

Lemma key_le_trans k1 k2 k3 : key_le k1 k2 -> key_le k2 k3 -> key_le k1 k3.
Proof.
  unfold key_le. intros [->|H1] [->|H2]; auto.
  right. eapply key_lt_trans; eassumption.
Qed.

Lemma key_le_total k1 k2 : Order.tuple_ltb k2 k1 = false -> key_le k1 k2.
Proof.
  intros H. destruct k1 as [d1 r1], k2 as [d2 r2].
  assert (~ key_lt (d2, r2) (d1, r1)) as Hn
      by (intros Hl; apply tuple_ltb_spec in Hl; congruence).
  unfold key_le, key_lt in *. simpl in *.
  destruct (Z.lt_total d1 d2) as [Hd|[Hd|Hd]]; [tauto| |tauto].
  subst d2. destruct (str_lt_total r1 r2) as [->|[Hr|Hr]]; tauto.
Qed.

Lemma key_lt_not_le k1 k2 : key_lt k1 k2 -> ~ key_le k2 k1.
Proof.
  intros H [->|H']; [now apply key_lt_irrefl in H|].
  eapply key_lt_irrefl, key_lt_trans; eassumption.
Qed.

Section SortedFacts.

Context {A : Type} (key : A -> Z * string).

Lemma insert_perm x l :
  Permutation (Order.insert Order.tuple_ltb key x l) (x :: l).
Proof.
  induction l as [|y l IH]; simpl; [reflexivity|].
  destruct (Order.tuple_ltb (key y) (key x)); [|reflexivity].
  rewrite IH. apply perm_swap.
Qed.

Lemma sorted_perm l : Permutation (Order.sorted Order.tuple_ltb key l) l.
Proof.
  induction l as [|x l IH]; simpl; [reflexivity|].
  unfold Order.sorted in IH. rewrite insert_perm. now constructor.
Qed.

Lemma insert_sorted x l :
  StronglySorted (fun a b => key_le (key a) (key b)) l ->
  StronglySorted (fun a b => key_le (key a) (key b))
                 (Order.insert Order.tuple_ltb key x l).
Proof.
  induction 1 as [|y l Hs IH Hy]; simpl.
  - repeat constructor.
  - destruct (Order.tuple_ltb (key y) (key x)) eqn:E.
    + constructor; [assumption|].
      apply (Permutation_Forall (Permutation_sym (insert_perm x l))).
      constructor; [|assumption].
      right. now apply tuple_ltb_spec.
    + apply key_le_total in E.
      constructor; [now constructor|].
      constructor; [assumption|].
      eapply Forall_impl; [|exact Hy].
      intros z Hz. eapply key_le_trans; eassumption.
Qed.

Lemma sorted_sorted l :
  StronglySorted (fun a b => key_le (key a) (key b))
                 (Order.sorted Order.tuple_ltb key l).
Proof.
  induction l as [|x l IH]; simpl; [constructor|].
  now apply insert_sorted.
Qed.

Lemma key_eqb_eq k1 k2 : key_eqb k1 k2 = true <-> k1 = k2.
Proof.
  destruct k1 as [d1 r1], k2 as [d2 r2]. unfold key_eqb; simpl.
  rewrite andb_true_iff, Z.eqb_eq, String.eqb_eq.
  split; [intros [-> ->]; reflexivity | intros [= -> ->]; auto].
Qed.

Lemma insert_stable k x l :
  filter (fun a => key_eqb (key a) k) (Order.insert Order.tuple_ltb key x l)
  = filter (fun a => key_eqb (key a) k) (x :: l).
Proof.
  induction l as [|y l IH]; [reflexivity|].
  cbn [Order.insert].
  destruct (Order.tuple_ltb (key y) (key x)) eqn:E; [|reflexivity].
  cbn [filter] in *. rewrite IH.
  destruct (key_eqb (key y) k) eqn:Ey; [|reflexivity].
  destruct (key_eqb (key x) k) eqn:Ex; [|reflexivity].
  apply key_eqb_eq in Ey, Ex. apply tuple_ltb_spec in E.
  rewrite Ey, Ex in E. now apply key_lt_irrefl in E.
Qed.

(** [sorted] is stable: the elements that have a given key keep the order
    they have in the list. *)
Lemma sorted_stable k l :
  filter (fun a => key_eqb (key a) k) (Order.sorted Order.tuple_ltb key l)
  = filter (fun a => key_eqb (key a) k) l.
Proof.
  induction l as [|x l IH]; [reflexivity|].
  cbn [Order.sorted fold_right]. rewrite insert_stable.
  cbn [filter]. unfold Order.sorted in IH. now rewrite IH.
Qed.

(** In a sorted list an element with a smaller key stands before. *)
Lemma sorted_before l x y :
  StronglySorted (fun a b => key_le (key a) (key b)) l ->
  In x l -> In y l -> key_lt (key x) (key y) ->
  occurs_before x y l.
Proof.
  intros Hs Hx Hy Hlt. induction Hs as [|z l Hs IH Hz]; [destruct Hx|].
  destruct Hx as [->|Hx].
  - destruct Hy as [->|Hy]; [now apply key_lt_irrefl in Hlt|].
    apply in_split in Hy. destruct Hy as (l2 & l3 & ->).
    now exists [], l2, l3.
  - destruct Hy as [->|Hy].
    + rewrite Forall_forall in Hz. apply Hz in Hx.
      now apply key_lt_not_le in Hlt.
    + destruct (IH Hx Hy) as (l1 & l2 & l3 & ->).
      now exists (z :: l1), l2, l3.
Qed.

End SortedFacts.

(** * The claims about event extraction *)

Lemma anniversaries_without_birthday strptime l1 row l2 :
  anniversaries strptime (l1 ++ without_birthday row :: l2)
  = anniversaries strptime (l1 ++ row :: l2).
Proof.
  induction l1 as [|r l1 IH]; simpl; [reflexivity|].
  now rewrite IH.
Qed.

Lemma birthday_of_malformed strptime row e :
  strptime (Birth_date row) = Raise e -> birthday_of strptime row = [].
Proof.
  intros H. unfold birthday_of. rewrite H.
  now destruct (String.eqb (Birth_date row) "").
Qed.

Lemma Forall2_In_r {A B} (R : A -> B -> Prop) l1 l2 y :
  Forall2 R l1 l2 -> In y l2 -> exists x, In x l1 /\ R x y.
Proof.
  induction 1 as [|a b l1 l2 HR HF IH]; simpl; [tauto|].
  intros [<-|Hin].
  - exists a. auto.
  - destruct (IH Hin) as (x & Hx & HRx). exists x. auto.
Qed.

(** C2.  A record with a death date gives no event, birthday or
    anniversary, whatever its other dates are: the events extracted, and
    the result of [parse_input], are those of the input without the
    record, and the record alone gives the empty list. *)
Theorem deceased_contribute_nothing strptime l1 row l2 :
  Death_date row <> "" ->
  special_days strptime [row] = Ok []
  /\ special_days strptime (l1 ++ row :: l2) = special_days strptime (l1 ++ l2)
  /\ parse_input strptime (l1 ++ row :: l2) = parse_input strptime (l1 ++ l2).
Proof.
  intros Hd.
  assert (alive (l1 ++ row :: l2) = alive (l1 ++ l2)) as E
      by (rewrite !alive_app; now rewrite alive_cons_deceased).
  split; [|split].
  - unfold special_days. now rewrite alive_cons_deceased.
  - unfold special_days. now rewrite E.
  - now apply parse_input_alive.
Qed.

Lemma deceased_contribute_nothing_witness :
  Death_date ann_deceased <> "" /\
  Strptime.strptime (Birth_date ann_deceased) = Ok (mkDatetime 1977 6 2) /\
  Strptime.strptime (Marriage_date ann_deceased) = Ok (mkDatetime 2000 6 15) /\
  special_days Strptime.strptime [ann_deceased] = Ok [] /\
  special_days Strptime.strptime ([eve] ++ ann_deceased :: [kim])
  = special_days Strptime.strptime ([eve] ++ [kim]) /\
  parse_input Strptime.strptime ([eve] ++ ann_deceased :: [kim])
  = parse_input Strptime.strptime ([eve] ++ [kim]).
Proof.
  split; [discriminate|]. do 2 (split; [reflexivity|]).
  apply (deceased_contribute_nothing
           Strptime.strptime [eve] ann_deceased [kim]).
  discriminate.
Defined.

(** C3, as the code has it.  A surviving record whose birth date is there
    and does not parse gives no birthday, and the failed parse raises
    nothing: the record has no birthday event, the turn of the birthday
    loop leaves the list of events as it was, and the events extracted,
    and the result of [parse_input], are those of the input in which the
    record has no birth date.  The anniversary of the record, or the
    error of its marriage date, is what it is without the birth date. *)
Theorem malformed_birth_date_skipped strptime l1 row l2 e :
  Death_date row = "" ->
  Birth_date row <> "" ->
  strptime (Birth_date row) = Raise e ->
  birthday_of strptime row = []
  /\ (forall sd, birthday_step strptime row sd = Ok sd)
  /\ special_days strptime (l1 ++ row :: l2)
     = special_days strptime (l1 ++ without_birthday row :: l2)
  /\ parse_input strptime (l1 ++ row :: l2)
     = parse_input strptime (l1 ++ without_birthday row :: l2).
Proof.
  intros Ha Hb Hbad.
  assert (special_days strptime (l1 ++ row :: l2)
          = special_days strptime (l1 ++ without_birthday row :: l2)) as E.
  { rewrite !special_days_spec, !alive_app.
    rewrite !alive_cons_surviving by assumption.
    rewrite anniversaries_without_birthday, !birthdays_app.
    change (birthdays strptime (without_birthday row :: alive l2))
      with (birthdays strptime (alive l2)).
    change (birthdays strptime (row :: alive l2))
      with (birthday_of strptime row ++ birthdays strptime (alive l2)).
    now rewrite (birthday_of_malformed _ _ _ Hbad). }
  split; [|split; [|split]].
  - exact (birthday_of_malformed _ _ _ Hbad).
  - intros sd. rewrite birthday_step_spec.
    rewrite (birthday_of_malformed _ _ _ Hbad). now rewrite app_nil_r.
  - exact E.
  - unfold parse_input. now rewrite E.
Qed.

Lemma malformed_birth_date_skipped_witness :
  Death_date feb30_married = "" /\
  Birth_date feb30_married <> "" /\
  Strptime.strptime (Birth_date feb30_married) = Raise ValueError /\
  birthday_of Strptime.strptime feb30_married = [] /\
  (forall sd, birthday_step Strptime.strptime feb30_married sd = Ok sd) /\
  special_days Strptime.strptime ([eve] ++ feb30_married :: [tom])
  = special_days Strptime.strptime
      ([eve] ++ without_birthday feb30_married :: [tom]) /\
  parse_input Strptime.strptime ([eve] ++ feb30_married :: [tom])
  = parse_input Strptime.strptime
      ([eve] ++ without_birthday feb30_married :: [tom]).
Proof.
  split; [reflexivity|]. split; [discriminate|]. split; [reflexivity|].
  apply (malformed_birth_date_skipped
           Strptime.strptime [eve] feb30_married [tom] ValueError);
    [reflexivity | discriminate | reflexivity].
Defined.

(** C3, as stated, fails.  Bob is alive and his birth date, Feb. 30 1990,
    does not parse.  With a marriage date that parses his record still
    gives an event, his anniversary; with a marriage date that does not
    parse, extraction raises. *)
Lemma malformed_birth_date_not_silent :
  (Death_date feb30_married = "" /\
   Birth_date feb30_married <> "" /\
   Strptime.strptime (Birth_date feb30_married) = Raise ValueError /\
   special_days Strptime.strptime [feb30_married]
   = Ok [anniversary_event feb30_married (mkDatetime 2000 6 15)] /\
   ~ no_event_and_no_error Strptime.strptime [feb30_married] feb30_married)
  /\
  (Death_date feb30_bad_marriage = "" /\
   Birth_date feb30_bad_marriage <> "" /\
   Strptime.strptime (Birth_date feb30_bad_marriage) = Raise ValueError /\
   special_days Strptime.strptime [feb30_bad_marriage] = Raise ValueError /\
   ~ no_event_and_no_error Strptime.strptime [feb30_bad_marriage]
       feb30_bad_marriage).
Proof.
  split.
  - split; [reflexivity|]. split; [discriminate|].
    do 2 (split; [reflexivity|]).
    intros (sd & Hsd & H). injection Hsd as <-.
    destruct (H (anniversary_event feb30_married (mkDatetime 2000 6 15)))
      as [_ Hn]; [now left|].
    apply Hn. exists (mkDatetime 2000 6 15). split; reflexivity.
  - split; [reflexivity|]. split; [discriminate|].
    do 2 (split; [reflexivity|]).
    intros (sd & Hsd & _). discriminate Hsd.
Qed.

(** C4.  When a surviving record has gender M and a marriage date that is
    there and does not parse, event extraction raises: [parse_input]
    returns no dictionary, and [main], which does not catch the error,
    builds no document. *)
Theorem malformed_marriage_date_aborts strptime rows row e :
  In row rows ->
  Death_date row = "" ->
  Gender row = "M" ->
  Marriage_date row <> "" ->
  strptime (Marriage_date row) = Raise e ->
  exists e',
    special_days strptime rows = Raise e'
    /\ parse_input strptime rows = Raise e'
    /\ main strptime rows = Raise e'.
Proof.
  intros Hin Ha Hg Hm Hbad.
  assert (has_anniversary row = true) as Hh.
  { unfold has_anniversary. rewrite Hg. simpl.
    apply String.eqb_neq in Hm. now rewrite Hm. }
  destruct (anniversaries_raise strptime (alive rows) row e) as [e' He'];
    try assumption.
  { now apply In_alive. }
  exists e'.
  assert (special_days strptime rows = Raise e') as E
      by (rewrite special_days_spec, He'; reflexivity).
  unfold main, parse_input. now rewrite E.
Qed.

Lemma malformed_marriage_date_aborts_witness :
  In bad_marriage [eve; bad_marriage; tom] /\
  Strptime.strptime (Marriage_date bad_marriage) = Raise ValueError /\
  exists e',
    special_days Strptime.strptime [eve; bad_marriage; tom] = Raise e'
    /\ parse_input Strptime.strptime [eve; bad_marriage; tom] = Raise e'
    /\ main Strptime.strptime [eve; bad_marriage; tom] = Raise e'.
Proof.
  split; [simpl; tauto|]. split; [reflexivity|].
  apply (malformed_marriage_date_aborts
           Strptime.strptime [eve; bad_marriage; tom] bad_marriage ValueError);
    [simpl; tauto | reflexivity | reflexivity | discriminate | reflexivity].
Defined.

(** C5.  When extraction succeeds, the events are the birthdays followed
    by the anniversaries, and the anniversaries match, one for one and in
    row order, the surviving records that have a marriage date and gender
    exactly M; the anniversary of a record has the parsed marriage date
    and the text "Anniversary of {First name} {Last name} and {Marriage
    to} (married in {year})", built from the fields as they are.  A record
    whose gender is not M adds nothing in the anniversary loop. *)
Theorem anniversary_events strptime rows sd :
  special_days strptime rows = Ok sd ->
  (exists annivs,
     sd = birthdays strptime (alive rows) ++ annivs /\
     Forall2 (is_anniversary_of strptime)
             (filter has_anniversary (alive rows)) annivs)
  /\ (forall row sd0, Gender row <> "M" ->
        anniversary_step strptime row sd0 = Ok sd0)
  /\ (forall row d,
        reason (anniversary_event row d)
        = ("Anniversary of " ++ First_name row ++ " " ++ Last_name row
           ++ " and " ++ Marriage_to row
           ++ " (married in " ++ str (year d) ++ ")")%string).
Proof.
  intros H. rewrite special_days_spec in H.
  destruct (anniversaries strptime (alive rows)) as [es|e] eqn:E;
    simpl in H; [|discriminate].
  injection H as <-. split; [|split].
  - exists es. split; [reflexivity|]. now apply anniversaries_ok.
  - intros row sd0 Hg. rewrite anniversary_step_spec.
    unfold has_anniversary. rewrite (gender_not_M _ Hg).
    now rewrite andb_false_r.
  - reflexivity.
Qed.

Lemma anniversary_events_witness :
  special_days Strptime.strptime sample_rows = Ok sample_events /\
  (exists annivs,
     sample_events
     = birthdays Strptime.strptime (alive sample_rows) ++ annivs /\
     Forall2 (is_anniversary_of Strptime.strptime)
             (filter has_anniversary (alive sample_rows)) annivs).
Proof.
  split; [reflexivity|].
  apply (anniversary_events Strptime.strptime sample_rows sample_events).
  reflexivity.
Defined.

(** The example of the specification: Tom Lee, married to Ann Lee on
    Jun. 15 2000. *)
Example anniversary_of_tom :
  special_days Strptime.strptime
    [mkRow "Tom" "Lee" "M" "" "" "Jun. 15 2000" "Ann Lee" ""]
  = Ok [mkEvent (mkDatetime 2000 6 15)
                "Anniversary of Tom Lee and Ann Lee (married in 2000)"].
Proof. reflexivity. Qed.

(** * The claims about month grouping *)

Lemma In_result m b sd :
  In (m, b)
     (map (fun m => (m, Order.sorted Order.tuple_ltb sort_key (bucket m sd)))
          (first_seen (map month_of sd))) ->
  b = Order.sorted Order.tuple_ltb sort_key (bucket m sd)
  /\ In m (map month_of sd).
Proof.
  rewrite in_map_iff. intros (m' & [= -> <-] & Hin).
  split; [reflexivity|]. now apply In_first_seen.
Qed.

(** C6.  Every month of the result holds its events in ascending order of
    the pair (day, reason), the reasons compared by code point: an event
    with a smaller day stands before one with a larger day, and of two
    events on the same day the one whose reason is smaller stands first,
    whatever the order of the input. *)
Theorem buckets_sorted strptime rows events_by_month m b :
  parse_input strptime rows = Ok events_by_month ->
  In (m, b) events_by_month ->
  StronglySorted event_le b
  /\ (forall e1 e2, In e1 b -> In e2 b ->
        day (date e1) < day (date e2) -> occurs_before e1 e2 b)
  /\ (forall e1 e2, In e1 b -> In e2 b ->
        day (date e1) = day (date e2) -> str_lt (reason e1) (reason e2) ->
        occurs_before e1 e2 b).
Proof.
  intros H Hin. apply parse_input_spec in H. destruct H as (sd & _ & ->).
  apply In_result in Hin. destruct Hin as [-> _].
  assert (StronglySorted event_le
            (Order.sorted Order.tuple_ltb sort_key (bucket m sd))) as Hs
      by apply (sorted_sorted sort_key).
  split; [exact Hs|]. split.
  - intros e1 e2 H1 H2 Hd.
    apply (sorted_before sort_key); try assumption. now left.
  - intros e1 e2 H1 H2 Hd Hr.
    apply (sorted_before sort_key); try assumption. right. now split.
Qed.

Lemma buckets_sorted_witness :
  let b := [birthday_event kim (mkDatetime 1982 6 3);
            birthday_event eve (mkDatetime 1980 6 5);
            anniversary_event tom (mkDatetime 2000 6 15)] in
  parse_input Strptime.strptime sample_rows = Ok sample_result /\
  In (6, b) sample_result /\
  StronglySorted event_le b /\
  (forall e1 e2, In e1 b -> In e2 b ->
     day (date e1) < day (date e2) -> occurs_before e1 e2 b) /\
  (forall e1 e2, In e1 b -> In e2 b ->
     day (date e1) = day (date e2) -> str_lt (reason e1) (reason e2) ->
     occurs_before e1 e2 b).
Proof.
  cbv zeta. split; [reflexivity|]. split; [simpl; tauto|].
  apply (buckets_sorted Strptime.strptime sample_rows sample_result 6);
    [reflexivity | simpl; tauto].
Defined.

(** Eve, born on the 5th, comes before Kim, born on the 3rd, in the
    input; in the bucket of June Kim comes first. *)
Example june_day_3_before_day_5 :
  occurs_before (birthday_event kim (mkDatetime 1982 6 3))
                (birthday_event eve (mkDatetime 1980 6 5))
                (fst (Dict.getitem sample_result 6)).
Proof.
  exists [], [], [anniversary_event tom (mkDatetime 2000 6 15)].
  reflexivity.
Qed.

(** Text is compared with regard to case: every capital letter comes
    before every small one. *)
Example str_lt_case : str_lt "Zoe" "adam".
Proof. constructor 2. vm_compute. reflexivity. Qed.

(** C7.  The events extracted are the birthdays, in row order, followed
    by the anniversaries, in row order.  The keys of the result are the
    months of these events in the order in which each is first seen, each
    once; the events under a key are, up to their order, the events of
    that month, so that every event is under the key of its month and
    under no other.  This order need not be the order of the calendar. *)
Theorem months_first_seen strptime rows events_by_month :
  parse_input strptime rows = Ok events_by_month ->
  exists annivs,
    anniversaries strptime (alive rows) = Ok annivs /\
    let sd := birthdays strptime (alive rows) ++ annivs in
    special_days strptime rows = Ok sd
    /\ Dict.keys events_by_month = first_seen (map month_of sd)
    /\ NoDup (Dict.keys events_by_month)
    /\ (forall m b, In (m, b) events_by_month ->
          Permutation b (bucket m sd))
    /\ (forall e, In e sd ->
          exists b, In (month_of e, b) events_by_month /\ In e b)
    /\ (forall e m b, In (m, b) events_by_month -> In e b -> m = month_of e)
    /\ (exists rows' d,
          parse_input Strptime.strptime rows' = Ok d /\ Dict.keys d = [6; 3]).
Proof.
  intros H. apply parse_input_spec in H. destruct H as (sd & Hsd & ->).
  pose proof Hsd as Hsd'. rewrite special_days_spec in Hsd'.
  destruct (anniversaries strptime (alive rows)) as [es|e];
    simpl in Hsd'; [|discriminate].
  injection Hsd' as <-. exists es. split; [reflexivity|]. cbv zeta.
  set (sd := birthdays strptime (alive rows) ++ es) in *.
  split; [exact Hsd|].
  split; [apply keys_tabulate|].
  split; [rewrite keys_tabulate; apply NoDup_first_seen|].
  split; [|split; [|split]].
  - intros m b Hin. apply In_result in Hin. destruct Hin as [-> _].
    apply sorted_perm.
  - intros e He.
    exists (Order.sorted Order.tuple_ltb sort_key (bucket (month_of e) sd)).
    split.
    + apply in_map_iff. exists (month_of e). split; [reflexivity|].
      apply In_first_seen. now apply in_map.
    + apply (Permutation_in _ (Permutation_sym (sorted_perm sort_key _))).
      unfold bucket. apply filter_In. split; [assumption | apply Z.eqb_refl].
  - intros e m b Hin He. apply In_result in Hin. destruct Hin as [-> _].
    apply (Permutation_in _ (sorted_perm sort_key _)) in He.
    unfold bucket in He. apply filter_In in He.
    symmetry. now apply Z.eqb_eq.
  - exists sample_rows, sample_result. split; reflexivity.
Qed.

Lemma months_first_seen_witness :
  parse_input Strptime.strptime sample_rows = Ok sample_result /\
  exists annivs,
    anniversaries Strptime.strptime (alive sample_rows) = Ok annivs /\
    let sd := birthdays Strptime.strptime (alive sample_rows) ++ annivs in
    special_days Strptime.strptime sample_rows = Ok sd
    /\ Dict.keys sample_result = first_seen (map month_of sd)
    /\ NoDup (Dict.keys sample_result)
    /\ (forall m b, In (m, b) sample_result -> Permutation b (bucket m sd))
    /\ (forall e, In e sd ->
          exists b, In (month_of e, b) sample_result /\ In e b)
    /\ (forall e m b, In (m, b) sample_result -> In e b -> m = month_of e)
    /\ (exists rows' d,
          parse_input Strptime.strptime rows' = Ok d /\ Dict.keys d = [6; 3]).
Proof.
  split; [reflexivity|].
  apply (months_first_seen Strptime.strptime sample_rows sample_result).
  reflexivity.
Defined.

(** C8, as the code has it.  Every event of the result is the birthday or
    the anniversary of a record of the input that has no death date: a
    record with a death date gives no event of its own.  The text
    'Marriage to' of a surviving record goes into its anniversary as it
    is, so a spouse who has died can be named there. *)
Theorem events_of_surviving_records strptime rows events_by_month m b e :
  parse_input strptime rows = Ok events_by_month ->
  In (m, b) events_by_month ->
  In e b ->
  exists row,
    In row rows /\ Death_date row = "" /\
    (is_birthday_of strptime row e
     \/ (has_anniversary row = true /\ is_anniversary_of strptime row e)).
Proof.
  intros H Hin He. apply parse_input_spec in H. destruct H as (sd & Hsd & ->).
  apply In_result in Hin. destruct Hin as [-> _].
  apply (Permutation_in _ (sorted_perm sort_key _)) in He.
  unfold bucket in He. apply filter_In in He. destruct He as [He _].
  rewrite special_days_spec in Hsd.
  destruct (anniversaries strptime (alive rows)) as [es|x] eqn:E;
    simpl in Hsd; [|discriminate].
  injection Hsd as <-. apply in_app_or in He. destruct He as [He|He].
  - apply In_birthdays in He. destruct He as (row & Hr & Hb).
    apply In_alive in Hr. exists row. tauto.
  - apply anniversaries_ok in E.
    destruct (Forall2_In_r _ _ _ _ E He) as (row & Hr & Ha).
    apply filter_In in Hr. destruct Hr as [Hr Hh].
    apply In_alive in Hr. exists row. tauto.
Qed.

Lemma events_of_surviving_records_witness :
  parse_input Strptime.strptime sample_rows = Ok sample_result /\
  In (3, [birthday_event tom (mkDatetime 1975 3 3)]) sample_result /\
  exists row,
    In row sample_rows /\ Death_date row = "" /\
    (is_birthday_of Strptime.strptime row
       (birthday_event tom (mkDatetime 1975 3 3))
     \/ (has_anniversary row = true /\
         is_anniversary_of Strptime.strptime row
           (birthday_event tom (mkDatetime 1975 3 3)))).
Proof.
  split; [reflexivity|]. split; [simpl; tauto|].
  apply (events_of_surviving_records Strptime.strptime sample_rows
           sample_result 3 [birthday_event tom (mkDatetime 1975 3 3)]);
    [reflexivity | simpl; tauto | simpl; tauto].
Defined.

(** C8, as stated, fails.  Tom is alive and his record names his wife
    Ann Lee, whose record has a death date: the anniversary of Tom is in
    the result and its text names her. *)
Lemma deceased_spouse_referenced :
  parse_input Strptime.strptime [tom; ann_deceased]
  = Ok [(3, [birthday_event tom (mkDatetime 1975 3 3)]);
        (6, [mkEvent (mkDatetime 2000 6 15)
               "Anniversary of Tom Lee and Ann Lee (married in 2000)"])]
  /\ Death_date ann_deceased <> ""
  /\ full_name ann_deceased = "Ann Lee"
  /\ ~ never_references_deceased Strptime.strptime [tom; ann_deceased].
Proof.
  split; [reflexivity|]. split; [discriminate|]. split; [reflexivity|].
  intros H.
  apply (H _ 6 [anniversary_event tom (mkDatetime 2000 6 15)]
           (anniversary_event tom (mkDatetime 2000 6 15)) ann_deceased
           eq_refl).
  - simpl. right. left. reflexivity.
  - simpl. left. reflexivity.
  - simpl. tauto.
  - discriminate.
  - exists "Anniversary of Tom Lee and ", " (married in 2000)". reflexivity.
Qed.

(** * Further properties of name resolution *)

Lemma last_token_clean p s :
  Spec.contains p (Spec.last_token p s) = false.
Proof.
  induction s as [|c t IH]; simpl; [reflexivity|].
  destruct (Spec.contains p t) eqn:Ct; [exact IH|].
  destruct (p c) eqn:Pc; [exact Ct|].
  simpl. now rewrite Pc, Ct.
Qed.

Lemma last_token_suffix sep s :
  Spec.contains (Ascii.eqb sep) s = true ->
  exists b, s = (b ++ String sep (Spec.last_token (Ascii.eqb sep) s))%string.
Proof.
  intros C. destruct (rpartition sep s) as [[b a]|] eqn:E.
  - apply rpartition_some in E. destruct E as [Hs Ha].
    exists b. now rewrite <- Ha.
  - apply rpartition_none in E. congruence.
Qed.

(** X1.  The resolved name always starts with the first name and a
    space; what follows is the last name, the married name, or an end of
    'Marriage to' that comes after a space. *)
Theorem normalize_name_shape row :
  exists surname,
    normalize_name row = (First_name row ++ " " ++ surname)%string
    /\ (surname = Last_name row
        \/ surname = Married_Name row
        \/ exists b, Marriage_to row = (b ++ " " ++ surname)%string).
Proof.
  destruct (String.eqb_spec (Gender row) "M") as [Hg|Hg].
  - exists (Last_name row). split; [|tauto].
    unfold normalize_name. now rewrite Hg.
  - rewrite (normalize_name_not_M row Hg). unfold Spec.resolve_name_sp.
    destruct (Spec.contains Spec.is_space (Marriage_to row)) eqn:C.
    + exists (Spec.last_token Spec.is_space (Marriage_to row)).
      split; [reflexivity|]. right; right.
      now apply last_token_suffix.
    + destruct (truthy (Married_Name row)).
      * exists (Married_Name row). tauto.
      * exists (Last_name row). tauto.
Qed.

(** X2.  For a record that is not male and whose 'Marriage to' holds a
    space, 'Marriage to' splits at a space into a beginning and an end
    without any space, and the resolved name is the first name, a space
    and that end: the surname taken from the spouse never holds a
    space. *)
Theorem spouse_surname_has_no_space row :
  Gender row <> "M" ->
  Spec.contains Spec.is_space (Marriage_to row) = true ->
  exists b a,
    Marriage_to row = (b ++ " " ++ a)%string
    /\ Spec.contains Spec.is_space a = false
    /\ normalize_name row = (First_name row ++ " " ++ a)%string.
Proof.
  intros Hg C. destruct (last_token_suffix " " _ C) as [b Hb].
  exists b, (Spec.last_token Spec.is_space (Marriage_to row)).
  split; [exact Hb|]. split; [apply last_token_clean|].
  rewrite (normalize_name_not_M row Hg). unfold Spec.resolve_name_sp.
  now rewrite C.
Qed.

Lemma spouse_surname_has_no_space_witness :
  Gender row_tab <> "M" /\
  Spec.contains Spec.is_space (Marriage_to row_tab) = true /\
  exists b a,
    Marriage_to row_tab = (b ++ " " ++ a)%string
    /\ Spec.contains Spec.is_space a = false
    /\ normalize_name row_tab = (First_name row_tab ++ " " ++ a)%string.
Proof.
  split; [discriminate|]. split; [reflexivity|].
  apply (spouse_surname_has_no_space row_tab); [discriminate | reflexivity].
Defined.

(** * Further properties of event extraction *)

Lemma birthdays_match strptime rows :
  Forall2 (is_birthday_of strptime)
          (filter (has_birthday strptime) rows) (birthdays strptime rows).
Proof.
  induction rows as [|row rows IH]; simpl; [constructor|].
  unfold has_birthday, birthday_of at 1.
  destruct (String.eqb_spec (Birth_date row) "") as [E|Hne]; simpl;
    [exact IH|].
  destruct (strptime (Birth_date row)) as [d|e] eqn:Ed; simpl; [|exact IH].
  constructor; [|exact IH].
  split; [assumption|]. exists d. now split.
Qed.

Lemma anniversaries_length strptime rows es :
  anniversaries strptime rows = Ok es ->
  List.length es = List.length (filter has_anniversary rows).
Proof.
  intros H. apply anniversaries_ok in H.
  symmetry. eapply Forall2_length. exact H.
Qed.

(** X3.  The birthday loop never raises.  It adds, in row order, one
    event for each surviving record whose birth date is there and
    parses, with that date and the text "Birthday of {resolved name}
    (born in {year})"; these events are the beginning of the list
    extracted, and the rest has one event for each record that gets an
    anniversary. *)
Theorem birthday_events strptime rows :
  exists bs,
    Forall2 (is_birthday_of strptime)
            (filter (has_birthday strptime) (alive rows)) bs
    /\ (forall sd0,
          for_in (alive rows) (birthday_step strptime) sd0 = Ok (sd0 ++ bs))
    /\ (forall sd, special_days strptime rows = Ok sd ->
          exists annivs,
            sd = bs ++ annivs /\
            List.length annivs
            = List.length (filter has_anniversary (alive rows))).
Proof.
  exists (birthdays strptime (alive rows)).
  split; [apply birthdays_match|].
  split; [intros sd0; apply birthday_loop_spec|].
  intros sd H. rewrite special_days_spec in H.
  destruct (anniversaries strptime (alive rows)) as [es|e] eqn:E;
    simpl in H; [|discriminate].
  injection H as <-. exists es. split; [reflexivity|].
  now apply anniversaries_length in E.
Qed.

Lemma anniversaries_succeed strptime rows :
  (exists es, anniversaries strptime rows = Ok es)
  <-> Forall (marriage_parses strptime) (filter has_anniversary rows).
Proof.
  induction rows as [|row rows IH]; simpl.
  - split; [constructor | eauto].
  - destruct (has_anniversary row); [|exact IH].
    destruct (strptime (Marriage_date row)) as [d|e] eqn:Ed; simpl.
    + split.
      * intros [es H]. constructor; [now exists d|].
        apply IH. destruct (anniversaries strptime rows) as [es'|];
          [eauto | discriminate].
      * intros H. inversion H as [|? ? _ Hf]; subst.
        apply IH in Hf. destruct Hf as [es' ->]. simpl. eauto.
    + split.
      * intros [es H]. discriminate.
      * intros H. inversion H as [|? ? [d Hd] _]; subst. congruence.
Qed.

(** X4.  Extraction succeeds exactly when the marriage date parses of
    every surviving record that has one and has gender M: birth dates,
    records with a death date and records of another gender never make
    it fail.  [parse_input] succeeds in the same cases. *)
Theorem extraction_succeeds_iff strptime rows :
  ((exists sd, special_days strptime rows = Ok sd)
   <-> Forall (marriage_parses strptime)
              (filter has_anniversary (alive rows)))
  /\ ((exists events_by_month,
         parse_input strptime rows = Ok events_by_month)
      <-> Forall (marriage_parses strptime)
                 (filter has_anniversary (alive rows))).
Proof.
  assert ((exists sd, special_days strptime rows = Ok sd)
          <-> Forall (marriage_parses strptime)
                     (filter has_anniversary (alive rows))) as Hs.
  { rewrite <- anniversaries_succeed, special_days_spec.
    destruct (anniversaries strptime (alive rows)) as [es|e]; simpl.
    - split; eauto.
    - split; intros [x H]; discriminate. }
  split; [exact Hs|].
  rewrite <- Hs. unfold parse_input.
  destruct (special_days strptime rows) as [sd|e]; simpl.
  - split; eauto.
  - split; intros [x H]; discriminate.
Qed.

Lemma anniversaries_first_failure strptime l1 row l2 e :
  Forall (marriage_parses strptime) (filter has_anniversary l1) ->
  has_anniversary row = true ->
  strptime (Marriage_date row) = Raise e ->
  anniversaries strptime (l1 ++ row :: l2) = Raise e.
Proof.
  intros Hf Hh Hbad. induction l1 as [|r l1 IH]; simpl.
  - now rewrite Hh, Hbad.
  - simpl in Hf. destruct (has_anniversary r); [|now apply IH].
    inversion Hf as [|? ? [d Hd] Hf']; subst.
    rewrite Hd. simpl. now rewrite (IH Hf').
Qed.

(** X5.  The exception that ends the run is the one of the first row, in
    input order, that is surviving, has a marriage date and gender M, and
    whose marriage date does not parse. *)
Theorem first_malformed_marriage_date_raises strptime l1 row l2 e :
  Forall (marriage_parses strptime) (filter has_anniversary (alive l1)) ->
  Death_date row = "" ->
  has_anniversary row = true ->
  strptime (Marriage_date row) = Raise e ->
  special_days strptime (l1 ++ row :: l2) = Raise e
  /\ parse_input strptime (l1 ++ row :: l2) = Raise e
  /\ main strptime (l1 ++ row :: l2) = Raise e.
Proof.
  intros Hf Ha Hh Hbad.
  assert (special_days strptime (l1 ++ row :: l2) = Raise e) as E.
  { rewrite special_days_spec, alive_app, alive_cons_surviving by assumption.
    now rewrite (anniversaries_first_failure _ _ _ _ e Hf Hh Hbad). }
  unfold main, parse_input. now rewrite E.
Qed.

Lemma first_malformed_marriage_date_raises_witness :
  Forall (marriage_parses Strptime.strptime)
         (filter has_anniversary (alive [tom; feb30])) /\
  has_anniversary bad_marriage = true /\
  Strptime.strptime (Marriage_date bad_marriage) = Raise ValueError /\
  special_days Strptime.strptime ([tom; feb30] ++ bad_marriage :: [eve])
  = Raise ValueError /\
  parse_input Strptime.strptime ([tom; feb30] ++ bad_marriage :: [eve])
  = Raise ValueError /\
  main Strptime.strptime ([tom; feb30] ++ bad_marriage :: [eve])
  = Raise ValueError.
Proof.
  assert (Forall (marriage_parses Strptime.strptime)
                 (filter has_anniversary (alive [tom; feb30]))) as Hf.
  { simpl. constructor; [|constructor].
    exists (mkDatetime 2000 6 15). reflexivity. }
  split; [exact Hf|]. do 2 (split; [reflexivity|]).
  apply (first_malformed_marriage_date_raises
           Strptime.strptime [tom; feb30] bad_marriage [eve] ValueError Hf);
    reflexivity.
Defined.

(** * Properties of the report *)

Lemma event_lines_spec events story :
  Report.event_lines events story = story ++ map Story.line events.
Proof.
  unfold Report.event_lines. revert story.
  induction events as [|e events IH]; intros story; simpl.
  - now rewrite app_nil_r.
  - rewrite IH. now rewrite <- app_assoc.
Qed.

Lemma getitem_range l i :
  (exists v, Report.getitem l i = Ok v)
  <-> - Z.of_nat (List.length l) <= i < Z.of_nat (List.length l).
Proof.
  unfold Report.getitem. set (n := Z.of_nat (List.length l)).
  destruct (Z.ltb_spec i 0) as [Hi|Hi].
  - destruct (Z.leb_spec 0 (i + n)) as [H1|H1];
      destruct (Z.ltb_spec (i + n) n) as [H2|H2]; simpl;
      (split; [intros [v H]; try discriminate; lia | intros H; eauto; lia]).
  - destruct (Z.leb_spec 0 i) as [H1|H1];
      destruct (Z.ltb_spec i n) as [H2|H2]; simpl;
      (split; [intros [v H]; try discriminate; lia | intros H; eauto; lia]).
Qed.

Lemma getitem_raises l i e : Report.getitem l i = Raise e -> e = IndexError.
Proof.
  unfold Report.getitem.
  destruct (_ && _); [discriminate | congruence].
Qed.

Lemma month_name_in_range m :
  -13 <= m <= 12 ->
  Report.getitem Report.month_name m = Ok (Story.name_at m).
Proof.
  intros H. unfold Story.name_at.
  destruct (proj2 (getitem_range Report.month_name m)) as [v ->];
    [simpl; lia | reflexivity].
Qed.

Lemma month_name_out_of_range m :
  ~ -13 <= m <= 12 ->
  Report.getitem Report.month_name m = Raise IndexError.
Proof.
  intros H.
  destruct (Report.getitem Report.month_name m) as [v|e] eqn:E.
  - exfalso. apply H.
    assert (exists v, Report.getitem Report.month_name m = Ok v) as Hv
        by eauto.
    apply getitem_range in Hv. simpl in Hv. lia.
  - apply getitem_raises in E. now subst e.
Qed.

Lemma month_step_in_range d m l first story :
  Dict.get d m = Some l ->
  -13 <= m <= 12 ->
  Report.month_step d m (first, story)
  = Ok (false,
        (if first then story else story ++ [Report.Spacer])
        ++ Story.section (m, l)).
Proof.
  intros Hg Hm. unfold Report.month_step.
  rewrite (month_name_in_range m Hm). cbn [bind].
  unfold Dict.getitem. rewrite Hg. cbn [fst].
  rewrite event_lines_spec. unfold Story.section, Story.heading.
  cbn [fst snd]. now rewrite <- app_assoc.
Qed.

Lemma month_step_out_of_range d m st :
  ~ -13 <= m <= 12 -> Report.month_step d m st = Raise IndexError.
Proof.
  intros Hm. unfold Report.month_step. destruct st as [first story].
  now rewrite (month_name_out_of_range m Hm).
Qed.

Lemma get_middle {V} (d1 d2 : Dict.t V) m l :
  NoDup (Dict.keys (d1 ++ (m, l) :: d2)) ->
  Dict.get (d1 ++ (m, l) :: d2) m = Some l.
Proof.
  intros Hnd. rewrite get_app_notin.
  - simpl. now rewrite Z.eqb_refl.
  - rewrite keys_app in Hnd. simpl in Hnd.
    apply NoDup_remove_2 in Hnd. rewrite in_app_iff in Hnd. tauto.
Qed.

Lemma month_loop_spec d d1 d2 story :
  d = d1 ++ d2 ->
  NoDup (Dict.keys d) ->
  Forall (fun m => -13 <= m <= 12) (Dict.keys d2) ->
  for_in (Dict.keys d2) (Report.month_step d) (false, story)
  = Ok (false,
        story ++ flat_map (fun kv => Report.Spacer :: Story.section kv) d2).
Proof.
  revert d1 story. induction d2 as [|[m l] d2 IH]; intros d1 story Hd Hnd Hr.
  - simpl. now rewrite app_nil_r.
  - cbn [Dict.keys map fst for_in]. inversion Hr as [|? ? Hm Hr']; subst.
    rewrite (month_step_in_range _ m l) by (try apply get_middle; assumption).
    cbn [bind]. fold (Dict.keys d2).
    rewrite (IH (d1 ++ [(m, l)])); try assumption.
    + cbn [flat_map]. now rewrite <- !app_assoc.
    + now rewrite <- app_assoc.
Qed.

Lemma generate_pdf_spec d :
  NoDup (Dict.keys d) ->
  Forall (fun m => -13 <= m <= 12) (Dict.keys d) ->
  Report.generate_pdf d = Ok (Story.story d).
Proof.
  intros Hnd Hr. unfold Report.generate_pdf, Story.story.
  destruct d as [|[m l] d]; [reflexivity|].
  cbn [Dict.keys map fst for_in]. inversion Hr as [|? ? Hm Hr']; subst.
  rewrite (month_step_in_range _ m l);
    [|simpl; now rewrite Z.eqb_refl | assumption].
  cbn [bind]. fold (Dict.keys d).
  rewrite (month_loop_spec _ [(m, l)] d); try assumption; reflexivity.
Qed.

Lemma month_loop_succeeds d ks st :
  (exists st', for_in ks (Report.month_step d) st = Ok st')
  <-> Forall (fun m => -13 <= m <= 12) ks.
Proof.
  revert st. induction ks as [|m ks IH]; intros st; cbn [for_in].
  - split; [constructor | eauto].
  - destruct (Z_le_dec (-13) m) as [H1|H1];
      [destruct (Z_le_dec m 12) as [H2|H2]|].
    + destruct st as [first story].
      unfold Report.month_step at 1.
      rewrite (month_name_in_range m (conj H1 H2)). cbn [bind].
      rewrite IH. split.
      * intros H. constructor; [lia | assumption].
      * intros H. now inversion H.
    + rewrite month_step_out_of_range by lia. cbn [bind]. split.
      * intros [st' H]. discriminate.
      * intros H. inversion H; subst. lia.
    + rewrite month_step_out_of_range by lia. cbn [bind]. split.
      * intros [st' H]. discriminate.
      * intros H. inversion H; subst. lia.
Qed.

Lemma month_loop_raises d ks st e :
  for_in ks (Report.month_step d) st = Raise e -> e = IndexError.
Proof.
  revert st. induction ks as [|m ks IH]; intros st; cbn [for_in];
    [discriminate|].
  destruct (Report.month_step d m st) as [st'|e'] eqn:E; cbn [bind].
  - apply IH.
  - intros [= <-]. unfold Report.month_step in E. destruct st as [first story].
    destruct (Report.getitem Report.month_name m) as [v|e0] eqn:G;
      cbn [bind] in E; [discriminate|].
    apply getitem_raises in G. congruence.
Qed.

Lemma generate_pdf_keys d story :
  Report.generate_pdf d = Ok story ->
  Forall (fun m => -13 <= m <= 12) (Dict.keys d).
Proof.
  intros H.
  apply (month_loop_succeeds d (Dict.keys d)
           (true, [Report.Paragraph
                     "<b>Family Birthdays and Anniversaries</b>"
                     Report.Title])).
  unfold Report.generate_pdf in H.
  destruct (for_in (Dict.keys d) (Report.month_step d) _) as [st|e];
    [eauto | discriminate].
Qed.

(** X6.  When [generate_pdf] gets as far as [doc.build] with a dictionary
    whose keys are distinct, the story it hands over is the title, then
    a section for each key in the order of the dictionary, every section
    but the first after a spacer; a section is the heading with the name
    of the month and one line "{day} {reason}" for each event, in the
    order of the bucket.  What [reportlab] then does with the story is
    not part of the statement. *)
Theorem generate_pdf_story d story :
  NoDup (Dict.keys d) ->
  Report.generate_pdf d = Ok story ->
  story = Story.story d.
Proof.
  intros Hnd H. pose proof (generate_pdf_keys d story H) as Hr.
  assert (Report.generate_pdf d = Ok (Story.story d)) as E.
  { unfold Report.generate_pdf, Story.story.
    destruct d as [|[m l] d]; [reflexivity|].
    cbn [Dict.keys map fst for_in]. inversion Hr as [|? ? Hm Hr']; subst.
    rewrite (month_step_in_range _ m l);
      [|simpl; now rewrite Z.eqb_refl | assumption].
    cbn [bind]. fold (Dict.keys d).
    rewrite (month_loop_spec _ [(m, l)] d); try assumption; reflexivity. }
  congruence.
Qed.

Lemma generate_pdf_story_witness :
  let story :=
    [Story.title;
     Story.heading "June";
     Story.line (birthday_event kim (mkDatetime 1982 6 3));
     Story.line (birthday_event eve (mkDatetime 1980 6 5));
     Story.line (anniversary_event tom (mkDatetime 2000 6 15));
     Report.Spacer;
     Story.heading "March";
     Story.line (birthday_event tom (mkDatetime 1975 3 3))] in
  NoDup (Dict.keys sample_result) /\
  Report.generate_pdf sample_result = Ok story /\
  story = Story.story sample_result.
Proof.
  cbv zeta.
  assert (NoDup (Dict.keys sample_result)) as Hnd.
  { simpl. repeat constructor; simpl; intuition discriminate. }
  split; [exact Hnd|]. split; [reflexivity|].
  apply (generate_pdf_story sample_result _ Hnd). reflexivity.
Defined.

(** X7.  [generate_pdf] gets as far as [doc.build] only when every key of
    the dictionary is an index of [calendar.month_name], from -13 to 12,
    a negative index counting from the end: with a key outside this
    range no story is handed over. *)
Theorem generate_pdf_needs_month_indexes d story :
  Report.generate_pdf d = Ok story ->
  Forall (fun m => -13 <= m <= 12) (Dict.keys d)
  /\ (forall m, In m (Dict.keys d) ->
        exists name, Report.getitem Report.month_name m = Ok name).
Proof.
  intros H. pose proof (generate_pdf_keys d story H) as Hr.
  split; [exact Hr|].
  intros m Hm. rewrite Forall_forall in Hr.
  exists (Story.name_at m). apply month_name_in_range. now apply Hr.
Qed.

Lemma generate_pdf_needs_month_indexes_witness :
  Report.generate_pdf sample_result = Ok (Story.story sample_result) /\
  Forall (fun m => -13 <= m <= 12) (Dict.keys sample_result) /\
  (forall m, In m (Dict.keys sample_result) ->
     exists name, Report.getitem Report.month_name m = Ok name).
Proof.
  split; [reflexivity|].
  apply (generate_pdf_needs_month_indexes
           sample_result (Story.story sample_result)).
  reflexivity.
Defined.

(** * The whole run *)

(** Where an event of the list comes from. *)
Lemma event_origin strptime rows sd e :
  special_days strptime rows = Ok sd ->
  In e sd ->
  exists row,
    In row rows /\ Death_date row = "" /\
    (is_birthday_of strptime row e \/ is_anniversary_of strptime row e).
Proof.
  intros Hsd He. rewrite special_days_spec in Hsd.
  destruct (anniversaries strptime (alive rows)) as [es|x] eqn:E;
    simpl in Hsd; [|discriminate].
  injection Hsd as <-. apply in_app_or in He. destruct He as [He|He].
  - apply In_birthdays in He. destruct He as (row & Hr & Hb).
    apply In_alive in Hr. exists row. tauto.
  - apply anniversaries_ok in E.
    destruct (Forall2_In_r _ _ _ _ E He) as (row & Hr & Ha).
    apply filter_In in Hr. destruct Hr as [Hr _].
    apply In_alive in Hr. exists row. tauto.
Qed.

Lemma event_date_parsed strptime rows sd e :
  special_days strptime rows = Ok sd ->
  In e sd ->
  exists s, strptime s = Ok (date e).
Proof.
  intros Hsd He.
  destruct (event_origin _ _ _ _ Hsd He) as (row & _ & _ & [Hb|Ha]).
  - destruct Hb as (_ & d & Hd & ->). now exists (Birth_date row).
  - destruct Ha as (d & Hd & ->). now exists (Marriage_date row).
Qed.

Lemma datetime_new_month y m d dt :
  Datetime.new y m d = Ok dt -> 1 <= month dt <= 12.
Proof.
  unfold Datetime.new.
  destruct (1 <=? y), (y <=? 9999); simpl; try discriminate.
  destruct (Z.leb_spec 1 m); simpl; try discriminate.
  destruct (Z.leb_spec m 12); simpl; try discriminate.
  destruct (_ && _); [|discriminate].
  intros [= <-]. simpl. lia.
Qed.

(** The model of [strptime] only gives months of the calendar. *)
Lemma strptime_calendar_months : calendar_months Strptime.strptime.
Proof.
  intros s dt. unfold Strptime.strptime.
  destruct (Strptime.match_b_dot s) as [[m s1]|]; simpl; [|discriminate].
  destruct (Strptime.spaces s1) as [s2|]; simpl; [|discriminate].
  destruct (Strptime.match_d s2) as [[d s3]|]; simpl; [|discriminate].
  destruct (Strptime.spaces s3) as [s4|]; simpl; [|discriminate].
  destruct (Strptime.match_Y s4) as [[y s5]|]; simpl; [|discriminate].
  destruct (truthy s5); [discriminate|].
  apply datetime_new_month.
Qed.

(** X8.  When [main] gets as far as [doc.build], [parse_input] has
    returned a dictionary, and the story handed over is the title
    followed by the sections of this dictionary, in the order of its
    keys: the months in the order they are first seen, the events of
    each month in the order of their bucket. *)
Theorem main_story strptime rows story :
  main strptime rows = Ok story ->
  exists events_by_month,
    parse_input strptime rows = Ok events_by_month
    /\ story = Story.story events_by_month.
Proof.
  unfold main. intros H.
  destruct (parse_input strptime rows) as [d|e] eqn:E; cbn [bind] in H;
    [|discriminate].
  exists d. split; [reflexivity|].
  pose proof (generate_pdf_keys d story H) as Hr.
  apply parse_input_spec in E. destruct E as (sd & _ & ->).
  rewrite generate_pdf_spec in H; [congruence| |assumption].
  rewrite keys_tabulate. apply NoDup_first_seen.
Qed.

Lemma main_story_witness :
  main Strptime.strptime sample_rows = Ok (Story.story sample_result) /\
  exists events_by_month,
    parse_input Strptime.strptime sample_rows = Ok events_by_month
    /\ Story.story sample_result = Story.story events_by_month.
Proof.
  split; [reflexivity|].
  apply (main_story Strptime.strptime sample_rows). reflexivity.
Defined.

(** X14.  With a parser that only gives months from 1 to 12, every key
    of the dictionary [parse_input] returns is a month from 1 to 12, for
    which [calendar.month_name] has a name. *)
Theorem month_keys_in_calendar strptime rows events_by_month :
  calendar_months strptime ->
  parse_input strptime rows = Ok events_by_month ->
  Forall (fun m => 1 <= m <= 12) (Dict.keys events_by_month)
  /\ (forall m, In m (Dict.keys events_by_month) ->
        Report.getitem Report.month_name m
        = Ok (nth (Z.to_nat m) Report.month_name EmptyString)).
Proof.
  intros Hc E. apply parse_input_spec in E. destruct E as (sd & Hsd & ->).
  assert (forall m,
            In m (Dict.keys
                    (map (fun m =>
                            (m, Order.sorted Order.tuple_ltb sort_key
                                  (bucket m sd)))
                         (first_seen (map month_of sd)))) ->
            1 <= m <= 12) as Hk.
  { intros m Hm. rewrite keys_tabulate in Hm.
    rewrite In_first_seen, in_map_iff in Hm. destruct Hm as (e & <- & He).
    destruct (event_date_parsed _ _ _ _ Hsd He) as [s Hs].
    apply Hc in Hs. unfold month_of. lia. }
  split; [now apply Forall_forall|].
  intros m Hm. apply Hk in Hm. unfold Report.getitem.
  simpl List.length.
  destruct (Z.ltb_spec m 0) as [?|_]; [lia|].
  destruct (Z.leb_spec 0 m) as [_|?]; [|lia].
  destruct (Z.ltb_spec m (Z.of_nat 13)) as [_|?];
    [reflexivity | simpl in *; lia].
Qed.

Lemma month_keys_in_calendar_witness :
  calendar_months Strptime.strptime /\
  parse_input Strptime.strptime sample_rows = Ok sample_result /\
  Forall (fun m => 1 <= m <= 12) (Dict.keys sample_result) /\
  (forall m, In m (Dict.keys sample_result) ->
     Report.getitem Report.month_name m
     = Ok (nth (Z.to_nat m) Report.month_name EmptyString)).
Proof.
  split; [exact strptime_calendar_months|]. split; [reflexivity|].
  apply (month_keys_in_calendar Strptime.strptime sample_rows sample_result
           strptime_calendar_months).
  reflexivity.
Defined.

Lemma birthdays_none strptime rows :
  Forall (fun row => has_birthday strptime row = false) rows ->
  birthdays strptime rows = [].
Proof.
  induction 1 as [|row rows Hr _ IH]; simpl; [reflexivity|].
  rewrite IH, app_nil_r. unfold has_birthday in Hr. unfold birthday_of.
  destruct (String.eqb (Birth_date row) ""); [reflexivity|].
  destruct (strptime (Birth_date row)); [discriminate | reflexivity].
Qed.

Lemma anniversaries_none strptime rows :
  Forall (fun row => has_anniversary row = false) rows ->
  anniversaries strptime rows = Ok [].
Proof.
  induction 1 as [|row rows Hr _ IH]; simpl; [reflexivity|].
  now rewrite Hr.
Qed.

(** X9.  When every record has a death date, or has neither a birth date
    that parses nor a marriage date with gender M, [parse_input] returns
    the empty dictionary and the document is the title alone: no heading
    and no spacer. *)
Theorem no_event_title_only strptime rows :
  (forall row, In row rows ->
     Death_date row <> ""
     \/ (has_birthday strptime row = false /\ has_anniversary row = false)) ->
  special_days strptime rows = Ok []
  /\ parse_input strptime rows = Ok []
  /\ main strptime rows = Ok [Story.title].
Proof.
  intros H.
  assert (special_days strptime rows = Ok []) as E.
  { rewrite special_days_spec.
    rewrite birthdays_none, anniversaries_none; [reflexivity| |];
      apply Forall_forall; intros row Hr; apply In_alive in Hr;
      destruct Hr as [Hr Ha]; destruct (H row Hr) as [Hd|[Hb Hn]];
      congruence. }
  split; [exact E|].
  unfold main, parse_input. rewrite E. split; reflexivity.
Qed.

Lemma no_event_title_only_witness :
  (forall row, In row [ann_deceased; feb30] ->
     Death_date row <> ""
     \/ (has_birthday Strptime.strptime row = false
         /\ has_anniversary row = false)) /\
  special_days Strptime.strptime [ann_deceased; feb30] = Ok [] /\
  parse_input Strptime.strptime [ann_deceased; feb30] = Ok [] /\
  main Strptime.strptime [ann_deceased; feb30] = Ok [Story.title].
Proof.
  assert (forall row, In row [ann_deceased; feb30] ->
            Death_date row <> ""
            \/ (has_birthday Strptime.strptime row = false
                /\ has_anniversary row = false)) as H.
  { intros row [<-|[<-|[]]].
    - left. discriminate.
    - right. split; reflexivity. }
  split; [exact H|].
  apply (no_event_title_only Strptime.strptime [ann_deceased; feb30] H).
Defined.

Lemma flat_map_perm {A B} (f g : A -> list B) l :
  (forall x, In x l -> Permutation (f x) (g x)) ->
  Permutation (flat_map f l) (flat_map g l).
Proof.
  induction l as [|x l IH]; intros H; simpl; [constructor|].
  apply Permutation_app; [apply H; now left|].
  apply IH. intros y Hy. apply H. now right.
Qed.

Lemma flat_map_eq_in {A B} (f g : A -> list B) l :
  (forall x, In x l -> f x = g x) -> flat_map f l = flat_map g l.
Proof.
  induction l as [|x l IH]; intros H; simpl; [reflexivity|].
  rewrite (H x) by now left. rewrite IH; [reflexivity|].
  intros y Hy. apply H. now right.
Qed.

(** The buckets of distinct months that cover a list share it out. *)
Lemma buckets_partition ks sd :
  NoDup ks ->
  (forall e, In e sd -> In (month_of e) ks) ->
  Permutation (flat_map (fun m => bucket m sd) ks) sd.
Proof.
  intros Hnd. induction sd as [|e sd IH]; intros Hc.
  - clear. induction ks as [|k ks IHk]; simpl; [constructor | exact IHk].
  - assert (In (month_of e) ks) as Hk by (apply Hc; now left).
    apply in_split in Hk. destruct Hk as (k1 & k2 & ->).
    apply NoDup_remove_2 in Hnd. rewrite in_app_iff in Hnd.
    assert (forall ks', ~ In (month_of e) ks' ->
              flat_map (fun m => bucket m (e :: sd)) ks'
              = flat_map (fun m => bucket m sd) ks') as Hother.
    { intros ks' Hn. apply flat_map_eq_in. intros m Hm.
      unfold bucket; simpl.
      destruct (Z.eqb_spec (month_of e) m); [subst; tauto | reflexivity]. }
    rewrite flat_map_app. cbn [flat_map].
    rewrite !Hother by tauto.
    unfold bucket at 2. cbn [filter]. rewrite Z.eqb_refl.
    fold (bucket (month_of e) sd).
    cbn [app]. rewrite <- Permutation_middle. constructor.
    assert (Permutation
              (flat_map (fun m => bucket m sd) (k1 ++ month_of e :: k2)) sd)
      as IH' by (apply IH; intros x Hx; apply Hc; now right).
    rewrite flat_map_app in IH'. exact IH'.
Qed.

(** X10.  Grouping and sorting neither lose nor repeat an event: the
    buckets of the result, one after the other, are the extracted events
    up to their order; and no bucket is empty. *)
Theorem buckets_hold_all_events strptime rows sd events_by_month :
  special_days strptime rows = Ok sd ->
  parse_input strptime rows = Ok events_by_month ->
  Permutation (List.concat (map snd events_by_month)) sd
  /\ (forall m b, In (m, b) events_by_month -> b <> []).
Proof.
  intros Hsd H. apply parse_input_spec in H.
  destruct H as (sd' & Hsd' & ->).
  assert (sd' = sd) as -> by congruence. split.
  - rewrite map_map. cbn [snd]. rewrite <- flat_map_concat_map.
    rewrite (flat_map_perm _ (fun m => bucket m sd)).
    + apply buckets_partition; [apply NoDup_first_seen|].
      intros e He. apply In_first_seen. now apply in_map.
    + intros m _. apply sorted_perm.
  - intros m b Hin. apply In_result in Hin. destruct Hin as [-> Hm].
    apply in_map_iff in Hm. destruct Hm as (e & <- & He).
    assert (In e (Order.sorted Order.tuple_ltb sort_key
                    (bucket (month_of e) sd))) as Hb.
    { apply (Permutation_in _ (Permutation_sym (sorted_perm sort_key _))).
      unfold bucket. apply filter_In. split; [assumption | apply Z.eqb_refl]. }
    intros Hnil. rewrite Hnil in Hb. destruct Hb.
Qed.

Lemma buckets_hold_all_events_witness :
  special_days Strptime.strptime sample_rows = Ok sample_events /\
  parse_input Strptime.strptime sample_rows = Ok sample_result /\
  Permutation (List.concat (map snd sample_result)) sample_events /\
  (forall m b, In (m, b) sample_result -> b <> []).
Proof.
  do 2 (split; [reflexivity|]).
  apply (buckets_hold_all_events Strptime.strptime sample_rows);
    reflexivity.
Defined.

Lemma section_no_spacer kv : filter Story.is_spacer (Story.section kv) = [].
Proof.
  unfold Story.section. cbn [filter Story.heading Story.is_spacer].
  induction (snd kv) as [|e l IH]; simpl; [reflexivity | exact IH].
Qed.

Lemma section_length kv :
  List.length (Story.section kv) = S (List.length (snd kv)).
Proof. unfold Story.section. simpl. now rewrite length_map. Qed.

Lemma spaced_sections_count d :
  List.length
    (filter Story.is_spacer
       (flat_map (fun kv => Report.Spacer :: Story.section kv) d))
  = List.length d
  /\ List.length (flat_map (fun kv => Report.Spacer :: Story.section kv) d)
     = (2 * List.length d + List.length (List.concat (map snd d)))%nat.
Proof.
  induction d as [|kv d [IH1 IH2]]; [split; reflexivity|].
  cbn [flat_map map List.concat]. split.
  - cbn [filter Story.is_spacer app]. rewrite filter_app, section_no_spacer.
    simpl. now rewrite IH1.
  - cbn [app List.length]. rewrite !length_app, section_length, IH2.
    simpl. lia.
Qed.

(** X11.  In a document built from a dictionary with distinct keys there
    is one spacer fewer than months (none for an empty dictionary), and
    beside the spacers the title, one heading for each month and one
    line for each event. *)
Theorem generate_pdf_counts d story :
  NoDup (Dict.keys d) ->
  Report.generate_pdf d = Ok story ->
  List.length (filter Story.is_spacer story) = pred (List.length d)
  /\ List.length story
     = (1 + List.length d + pred (List.length d)
        + List.length (List.concat (map snd d)))%nat.
Proof.
  intros Hnd H.
  assert (Forall (fun m => -13 <= m <= 12) (Dict.keys d)) as Hr.
  { apply (month_loop_succeeds d (Dict.keys d)
             (true, [Report.Paragraph
                       "<b>Family Birthdays and Anniversaries</b>"
                       Report.Title])).
    unfold Report.generate_pdf in H.
    destruct (for_in (Dict.keys d) (Report.month_step d) _) as [st|e];
      [eauto | discriminate]. }
  rewrite (generate_pdf_spec d Hnd Hr) in H. injection H as <-.
  unfold Story.story. destruct d as [|kv d]; [split; reflexivity|].
  destruct (spaced_sections_count d) as [E1 E2].
  cbn [filter Story.is_spacer Story.title map List.concat List.length pred].
  rewrite filter_app, section_no_spacer. cbn [app].
  rewrite !length_app, section_length, E1, E2. split; lia.
Qed.

Lemma generate_pdf_counts_witness :
  NoDup (Dict.keys sample_result) /\
  Report.generate_pdf sample_result = Ok (Story.story sample_result) /\
  List.length (filter Story.is_spacer (Story.story sample_result)) = 1%nat /\
  List.length (Story.story sample_result) = 8%nat.
Proof.
  assert (NoDup (Dict.keys sample_result)) as Hnd.
  { simpl. repeat constructor; simpl; intuition discriminate. }
  split; [exact Hnd|]. split; [reflexivity|].
  apply (generate_pdf_counts sample_result (Story.story sample_result) Hnd).
  reflexivity.
Defined.

(** * The order of the rows *)

Lemma filter_perm {A} (p : A -> bool) l l' :
  Permutation l l' -> Permutation (filter p l) (filter p l').
Proof.
  induction 1 as [|x l l' _ IH|x y l|l l' l'' _ IH1 _ IH2]; simpl.
  - constructor.
  - destruct (p x); [now constructor | assumption].
  - destruct (p x), (p y); try reflexivity. apply perm_swap.
  - etransitivity; eassumption.
Qed.

Lemma anniversaries_perm strptime l l' :
  Permutation l l' ->
  forall es, anniversaries strptime l = Ok es ->
  exists es', anniversaries strptime l' = Ok es' /\ Permutation es es'.
Proof.
  induction 1 as [|x l l' _ IH|x y l|l l' l'' _ IH1 _ IH2]; intros es.
  - simpl. intros [= <-]. exists []. split; [reflexivity | constructor].
  - simpl. destruct (has_anniversary x); [|apply IH].
    destruct (strptime (Marriage_date x)) as [d|e]; simpl; [|discriminate].
    destruct (anniversaries strptime l) as [es0|e]; simpl; [|discriminate].
    intros [= <-]. destruct (IH es0 eq_refl) as (es0' & -> & Hp).
    simpl. eexists. split; [reflexivity | now constructor].
  - simpl.
    destruct (has_anniversary x), (has_anniversary y);
      destruct (strptime (Marriage_date x)) as [dx|],
               (strptime (Marriage_date y)) as [dy|],
               (anniversaries strptime l) as [es0|];
      simpl; intros H; try discriminate H; injection H as <-;
      eexists; (split; [reflexivity|]); try reflexivity.
    apply perm_swap.
  - intros H1. destruct (IH1 es H1) as (es' & H2 & Hp1).
    destruct (IH2 es' H2) as (es'' & H3 & Hp2).
    exists es''. split; [assumption | etransitivity; eassumption].
Qed.

Lemma special_days_perm strptime rows rows' sd :
  Permutation rows rows' ->
  special_days strptime rows = Ok sd ->
  exists sd', special_days strptime rows' = Ok sd' /\ Permutation sd sd'.
Proof.
  intros Hp H. rewrite special_days_spec in H.
  assert (Permutation (alive rows) (alive rows')) as Ha
      by now apply filter_perm.
  destruct (anniversaries strptime (alive rows)) as [es|e] eqn:E;
    simpl in H; [|discriminate].
  injection H as <-.
  destruct (anniversaries_perm strptime _ _ Ha es E) as (es' & E' & Hes).
  exists (birthdays strptime (alive rows') ++ es').
  rewrite special_days_spec, E'. split; [reflexivity|].
  apply Permutation_app; [|assumption].
  unfold birthdays. now apply Permutation_flat_map.
Qed.

(** X12.  The months of the result and the events under each month do
    not depend on the order of the rows: when [parse_input] succeeds on
    some rows it succeeds on the same rows in any other order, with the
    same months and, under each month, the same events up to their
    order. *)
Theorem buckets_independent_of_row_order strptime rows rows' events_by_month :
  Permutation rows rows' ->
  parse_input strptime rows = Ok events_by_month ->
  exists events_by_month',
    parse_input strptime rows' = Ok events_by_month'
    /\ Permutation (Dict.keys events_by_month) (Dict.keys events_by_month')
    /\ (forall m b, In (m, b) events_by_month ->
          exists b', In (m, b') events_by_month' /\ Permutation b b').
Proof.
  intros Hp H. apply parse_input_spec in H. destruct H as (sd & Hsd & ->).
  destruct (special_days_perm _ _ _ _ Hp Hsd) as (sd' & Hsd' & Hperm).
  exists (map (fun m =>
                 (m, Order.sorted Order.tuple_ltb sort_key (bucket m sd')))
              (first_seen (map month_of sd'))).
  split; [|split].
  - unfold parse_input. rewrite Hsd'. cbn [bind].
    now rewrite grouped_sorted_spec.
  - rewrite !keys_tabulate.
    apply NoDup_Permutation; try apply NoDup_first_seen.
    intros m. rewrite !In_first_seen. split; intros Hm.
    + eapply Permutation_in; [|exact Hm]. now apply Permutation_map.
    + eapply Permutation_in; [|exact Hm].
      apply Permutation_sym. now apply Permutation_map.
  - intros m b Hin. apply In_result in Hin. destruct Hin as [-> Hm].
    exists (Order.sorted Order.tuple_ltb sort_key (bucket m sd')). split.
    + apply in_map_iff. exists m. split; [reflexivity|].
      apply In_first_seen.
      eapply Permutation_in; [|exact Hm]. now apply Permutation_map.
    + rewrite !sorted_perm. unfold bucket. now apply filter_perm.
Qed.

Lemma buckets_independent_of_row_order_witness :
  Permutation sample_rows [tom; kim; feb30; eve; ann_deceased] /\
  parse_input Strptime.strptime sample_rows = Ok sample_result /\
  exists events_by_month',
    parse_input Strptime.strptime [tom; kim; feb30; eve; ann_deceased]
    = Ok events_by_month'
    /\ Permutation (Dict.keys sample_result) (Dict.keys events_by_month')
    /\ (forall m b, In (m, b) sample_result ->
          exists b', In (m, b') events_by_month' /\ Permutation b b').
Proof.
  assert (Permutation sample_rows [tom; kim; feb30; eve; ann_deceased])
    as Hp.
  { unfold sample_rows.
    apply (Permutation_cons_app [tom; kim; feb30] [ann_deceased] eve).
    simpl. constructor.
    apply (Permutation_cons_app [kim; feb30] [] ann_deceased).
    simpl. reflexivity. }
  split; [exact Hp|]. split; [reflexivity|].
  apply (buckets_independent_of_row_order
           Strptime.strptime sample_rows _ sample_result Hp).
  reflexivity.
Defined.

(** X13.  When extraction succeeds, the list holds one event for each
    surviving record whose birth date parses and one for each surviving
    record that has a marriage date and gender M; a record listed twice
    counts twice. *)
Theorem event_count strptime rows sd :
  special_days strptime rows = Ok sd ->
  List.length sd
  = (List.length (filter (has_birthday strptime) (alive rows))
     + List.length (filter has_anniversary (alive rows)))%nat.
Proof.
  intros H. rewrite special_days_spec in H.
  destruct (anniversaries strptime (alive rows)) as [es|e] eqn:E;
    simpl in H; [|discriminate].
  injection H as <-. rewrite length_app.
  rewrite (anniversaries_length _ _ _ E).
  now rewrite (Forall2_length (birthdays_match strptime (alive rows))).
Qed.

Lemma event_count_witness :
  special_days Strptime.strptime (sample_rows ++ sample_rows)
  = Ok (birthdays Strptime.strptime (alive sample_rows)
        ++ birthdays Strptime.strptime (alive sample_rows)
        ++ [anniversary_event tom (mkDatetime 2000 6 15);
            anniversary_event tom (mkDatetime 2000 6 15)]) /\
  List.length
    (birthdays Strptime.strptime (alive sample_rows)
     ++ birthdays Strptime.strptime (alive sample_rows)
     ++ [anniversary_event tom (mkDatetime 2000 6 15);
         anniversary_event tom (mkDatetime 2000 6 15)])
  = (List.length (filter (has_birthday Strptime.strptime)
                         (alive (sample_rows ++ sample_rows)))
     + List.length (filter has_anniversary
                           (alive (sample_rows ++ sample_rows))))%nat.
Proof.
  split; [reflexivity|].
  apply (event_count Strptime.strptime (sample_rows ++ sample_rows)).
  reflexivity.
Defined.
